(** * NPS_time_to_event: the batched categorical sampler and the hazard-to-PMF
      transform of the Python port

    The development embeds
    - [python/nps_nhpp.py] (function [nps_nhpp]) and
    - the data wrangling of [python/02_homogeneous_cohort.py] and
      [python/03_heterogeneous_cohort.py] (the frames [df_mort_data_1],
      [df_mort_append_0], [df_mort_data_2]),
    and proves properties of both.

    Numbers.  The Python code computes with binary64 floats.  Rounding,
    overflow and underflow are not modelled: finite values are exact.  The
    sampler only adds, divides and compares, so its numbers are exact
    rationals extended with the IEEE special values (infinities and NaN),
    which the code can produce by dividing a row by a zero sum.  The
    transform needs [exp], so its numbers are Stdlib's reals, with [None]
    standing for NaN.

    The statements are therefore about the structure of the computation
    (what is compared, added and divided, in which order, and what is
    returned) and about order.  Where a statement gives a number, dyadic
    inputs apart, it is the number of exact arithmetic; no statement says
    that a rescaled row sums to exactly 1 or that a bound is strict where
    only rounding-free arithmetic would make it so. *)

From Stdlib Require Import String Ascii.
From Stdlib Require Import List Bool Arith ZArith QArith Qabs Qreduction Lia.
From Stdlib Require Import Permutation Sorted OrderedTypeEx.
From Stdlib Require Import Reals Lra.
Import ListNotations.

Set Implicit Arguments.
Local Close Scope Q_scope.

(** ** Numbers of the sampler *)

Module Float.
Local Open Scope Q_scope.

(** A float64 value up to rounding: a finite rational (kept in lowest
    terms by the operations), an infinity, or NaN.  The sign of zero is not
    tracked. *)
Inductive float : Type :=
| Fin (q : Q)
| PInf
| NInf
| NaN.

Definition of_nat (n : nat) : float := Fin (inject_Z (Z.of_nat n)).

Definition is_zero (q : Q) : bool := Qeq_bool q 0.
Definition is_neg (q : Q) : bool := negb (Qle_bool 0 q).

(** IEEE addition on the special values.  The sum of two finite values is
    the exact sum: binary64 rounds it (1 + (1 - 2^-53) is 2) and overflows
    to an infinity, which is not modelled. *)
Definition add (a b : float) : float :=
  match a, b with
  | NaN, _ | _, NaN => NaN
  | Fin x, Fin y => Fin (Qred (x + y))
  | PInf, NInf | NInf, PInf => NaN
  | PInf, _ | _, PInf => PInf
  | NInf, _ | _, NInf => NInf
  end.

(** IEEE division; numpy only warns on a zero divisor.  The quotient of two
    finite values is the exact quotient: binary64 rounds it, so that the sum
    of a rescaled row need not be 1, which is not modelled. *)
Definition div (a b : float) : float :=
  match a, b with
  | NaN, _ | _, NaN => NaN
  | Fin x, Fin y =>
      if is_zero y
      then (if is_zero x then NaN else if is_neg x then NInf else PInf)
      else Fin (Qred (x / y))
  | Fin _, _ => Fin 0
  | PInf, Fin y => if is_neg y then NInf else PInf
  | NInf, Fin y => if is_neg y then PInf else NInf
  | _, _ => NaN
  end.

(** [a >= b]; every comparison with NaN is false. *)
Definition ge (a b : float) : bool :=
  match a, b with
  | NaN, _ | _, NaN => false
  | Fin x, Fin y => Qle_bool y x
  | PInf, _ => true
  | _, NInf => true
  | _, _ => false
  end.

(** Equality up to the representation of a rational. *)
Definition eqv (a b : float) : Prop :=
  match a, b with
  | Fin x, Fin y => x == y
  | PInf, PInf | NInf, NInf | NaN, NaN => True
  | _, _ => False
  end.

End Float.

Import Float.

(** ** The fragment of numpy that [nps_nhpp] uses *)

Module Numpy.
Local Open Scope Q_scope.

(** A 1-D array, a 2-D array (a list of rows of one length) and an array of
    shape (n, 1), which is kept as the list of its n entries. *)
Definition ndarray1 := list float.
Definition ndarray2 := list (list float).
Definition column := list float.

Inductive ndarray : Type :=
| Arr1 (a : ndarray1)
| Arr2 (a : ndarray2).

Inductive exn : Type :=
| ValueError
| IndexError.

(** [a.shape[0]] and [a.shape[1]].  An array without rows is rejected by
    [vstack] below before its second dimension is looked at. *)
Definition shape0 (a : ndarray2) : nat := length a.
Definition shape1 (a : ndarray2) : nat := length (hd [] a).

Definition rectangular (a : ndarray2) : Prop :=
  Forall (fun row => length row = shape1 a) a.

(** [np.arange(0, n)] *)
Definition arange (n : nat) : ndarray1 := map of_nat (seq 0 n).

(** [row.sum()] *)
Definition sum (row : list float) : float := fold_left add row (Fin 0).

(** [a.sum(axis = 1)] *)
Definition sum_axis1 (a : ndarray2) : list float := map sum a.

(** [np.isclose(x, 1)] with numpy's defaults [rtol = 1e-05] and
    [atol = 1e-08]: [|x - 1| <= atol + rtol * |1|], false on NaN and on the
    infinities. *)
Definition rtol : Q := 1 # 100000.
Definition atol : Q := 1 # 100000000.

Definition isclose1 (x : float) : bool :=
  match x with
  | Fin q => Qle_bool (Qabs (q - 1)) (atol + rtol * Qabs 1)
  | _ => false
  end.

(** [a / a.sum(axis = 1, keepdims = True)]: every entry is divided by the
    sum of its own row. *)
Definition div_keepdims (a : ndarray2) : ndarray2 :=
  map (fun row => map (fun x => div x (sum row)) row) a.

(** [np.cumsum(row)]: the first entry is copied, each later one is added to
    the running total. *)
Fixpoint cumsum_from (acc : float) (row : list float) : list float :=
  match row with
  | [] => []
  | x :: rest => let s := add acc x in s :: cumsum_from s rest
  end.

Definition cumsum (row : list float) : list float :=
  match row with
  | [] => []
  | x :: rest => x :: cumsum_from x rest
  end.

Definition cumsum_axis1 (a : ndarray2) : ndarray2 := map cumsum a.

(** [a >= c] for [a] of shape (n, k) and [c] of shape (n, 1): the single
    entry of row [i] of [c] is compared with every entry of row [i] of
    [a]. *)
Fixpoint ge_col (a : ndarray2) (c : column) : list (list bool) :=
  match a, c with
  | row :: a', u :: c' => map (fun x => ge x u) row :: ge_col a' c'
  | _, _ => []
  end.

(** [v + c] for [v] of shape (n,) and [c] of shape (n, 1).  Broadcasting
    reads [v] as one row of shape (1, n), so the result has shape (n, n):
    entry (i, j) is [v[j] + c[i]]. *)
Definition add_row_col (v : ndarray1) (c : column) : ndarray2 :=
  map (fun u => map (fun x => add x u) v) c.

(** [np.argmax] of a row of booleans: the index of the first entry that is
    strictly greater than the best seen so far, starting from entry 0. *)
Fixpoint argmax_from (best : bool) (best_i i : nat) (row : list bool) : nat :=
  match row with
  | [] => best_i
  | b :: rest =>
      if negb best && b
      then argmax_from b i (S i) rest
      else argmax_from best best_i (S i) rest
  end.

(** An empty row makes numpy raise [ValueError]. *)
Definition argmax (row : list bool) : exn + nat :=
  match row with
  | [] => inl ValueError
  | b :: rest => inr (argmax_from b 0 1 rest)
  end.

(** [np.argmax(a, axis = 1)] *)
Fixpoint argmax_axis1 (a : list (list bool)) : exn + list nat :=
  match a with
  | [] => inr []
  | row :: a' =>
      match argmax row with
      | inl e => inl e
      | inr p =>
          match argmax_axis1 a' with
          | inl e => inl e
          | inr ps => inr (p :: ps)
          end
      end
  end.

(** [v[positions]]: an index outside [v] raises [IndexError]. *)
Fixpoint take (v : ndarray1) (positions : list nat) : exn + ndarray1 :=
  match positions with
  | [] => inr []
  | p :: ps =>
      match nth_error v p with
      | None => inl IndexError
      | Some x =>
          match take v ps with
          | inl e => inl e
          | inr xs => inr (x :: xs)
          end
      end
  end.

(** [np.vstack(v)] of a 1-D array: its n entries stacked as n rows of one
    entry; [ValueError] when there is nothing to stack. *)
Definition vstack (v : ndarray1) : exn + column :=
  match v with
  | [] => inl ValueError
  | _ => inr v
  end.

End Numpy.

Import Numpy.

(** ** The process state: numpy's global generator and standard output *)

(** The generator is the sequence of uniform draws it will hand out and the
    number already consumed. *)
Record RandomState : Type := mkRandomState {
  stream : nat -> Q;
  consumed : nat
}.

Record world : Type := mkWorld {
  random : RandomState;
  stdout : list string
}.

(** Computations that read and update the process state and may raise. *)
Definition M (A : Type) : Type := world -> (exn + A) * world.

Definition ret {A} (x : A) : M A := fun w => (inr x, w).

Definition bind {A B} (c : M A) (k : A -> M B) : M B :=
  fun w =>
    match c w with
    | (inl e, w') => (inl e, w')
    | (inr x, w') => k x w'
    end.

Definition lift {A} (r : exn + A) : M A := fun w => (r, w).

Notation "x <- c ;; k" := (bind c (fun x => k))
  (at level 61, c at next level, right associativity).
Notation "c ;;; k" := (bind c (fun _ => k))
  (at level 61, right associativity).

(** [print(s)] *)
Definition print (s : string) : M unit :=
  fun w => (inr tt, mkWorld (random w) (stdout w ++ [s])).

(** [np.random.uniform(size = n)]: the next [n] draws. *)
Definition random_uniform (n : nat) : M ndarray1 :=
  fun w =>
    let g := random w in
    (inr (map (fun i => Fin (stream g i)) (seq (consumed g) n)),
     mkWorld (mkRandomState (stream g) (consumed g + n)) (stdout w)).

(** ** [nps_nhpp] *)

Definition valid_correction : list string := ["none"; "uniform"]%string.

Definition warning : string :=
  "Warning: the correction argument only accepts the following inputs: 'none' and 'uniform'"%string.

Definition mem (s : string) (l : list string) : bool :=
  existsb (String.eqb s) l.

(** The matrix the sampling runs on (lines 67-69). *)
Definition normalized (a_probs : ndarray2) : ndarray2 :=
  if negb (forallb isclose1 (sum_axis1 a_probs))
  then div_keepdims a_probs
  else a_probs.

Definition nps_nhpp (a_probs : ndarray2) (correction : string)
    (a_categories : option ndarray1) : M ndarray :=
  (if negb (mem correction valid_correction) then print warning else ret tt) ;;;
  let a_categories :=
    match a_categories with
    | None => arange (shape1 a_probs)
    | Some c => c
    end in
  let a_probs := normalized a_probs in
  let a_samp_size := shape0 a_probs in
  draws <- random_uniform a_samp_size ;;
  a_unif_probs <- lift (vstack draws) ;;
  let a_cum_probs := cumsum_axis1 a_probs in
  let comparison_result := ge_col a_cum_probs a_unif_probs in
  positions <- lift (argmax_axis1 comparison_result) ;;
  corresponding_values <- lift (take a_categories positions) ;;
  if String.eqb correction "uniform"
  then ret (Arr2 (add_row_col corresponding_values a_unif_probs))
  else ret (Arr1 corresponding_values).

(** ** The life table of the cohort scripts *)

(** A numeric cell of a data frame: a real, or [None] for NaN. *)
Definition cell := option R.

(** One line of [data/all_cause_mortality.csv]; an empty [Rate] field reads
    as NaN. *)
Record record : Type := mkRecord {
  r_Sex : string;
  r_Year : Z;
  r_Age : Z;
  r_Rate : cell
}.

(** One row of the frames the scripts build.  A column that has not been
    assigned yet holds NaN. *)
Record row : Type := mkRow {
  Sex : string;
  Year : Z;
  Age : Z;
  Rate : cell;
  H_t : cell;
  S_t : cell;
  F_t : cell;
  p_t : cell
}.

Definition DataFrame := list row.

Definition set_Age (r : row) (v : Z) : row :=
  mkRow (Sex r) (Year r) v (Rate r) (H_t r) (S_t r) (F_t r) (p_t r).
Definition set_Rate (r : row) (v : cell) : row :=
  mkRow (Sex r) (Year r) (Age r) v (H_t r) (S_t r) (F_t r) (p_t r).
Definition set_H_t (r : row) (v : cell) : row :=
  mkRow (Sex r) (Year r) (Age r) (Rate r) v (S_t r) (F_t r) (p_t r).
Definition set_S_t (r : row) (v : cell) : row :=
  mkRow (Sex r) (Year r) (Age r) (Rate r) (H_t r) v (F_t r) (p_t r).
Definition set_F_t (r : row) (v : cell) : row :=
  mkRow (Sex r) (Year r) (Age r) (Rate r) (H_t r) (S_t r) v (p_t r).
Definition set_p_t (r : row) (v : cell) : row :=
  mkRow (Sex r) (Year r) (Age r) (Rate r) (H_t r) (S_t r) (F_t r) v.

(** [pd.read_csv], for a file whose [Sex] fields pandas keeps as text and
    whose [Rate] column it reads as floats.  A field that pandas reads as
    missing in [Sex] (such as NA), or a [Rate] column of integers only, is
    outside these frames. *)
Definition read_csv (lines : list record) : DataFrame :=
  map (fun l => mkRow (r_Sex l) (r_Year l) (r_Age l) (r_Rate l) None None None None)
      lines.

(** [df.query("Year == 2015")] *)
Definition query_Year_2015 (df : DataFrame) : DataFrame :=
  filter (fun r => (Year r =? 2015)%Z) df.

(** The order of [sort_values(by = ["Sex", "Year", "Age"])]: strings by code
    point, then the two integers. *)
Definition key_compare (a b : row) : comparison :=
  match String.compare (Sex a) (Sex b) with
  | Eq =>
      match Z.compare (Year a) (Year b) with
      | Eq => Z.compare (Age a) (Age b)
      | c => c
      end
  | c => c
  end.

Definition key_leb (a b : row) : bool :=
  match key_compare a b with
  | Gt => false
  | _ => true
  end.

(** A stable sort: rows with equal keys keep their order. *)
Fixpoint insert (r : row) (df : DataFrame) : DataFrame :=
  match df with
  | [] => [r]
  | x :: rest => if key_leb r x then r :: x :: rest else x :: insert r rest
  end.

Fixpoint sort_values (df : DataFrame) : DataFrame :=
  match df with
  | [] => []
  | r :: rest => insert r (sort_values rest)
  end.

(** The per-group state of the grouped operations. *)
Definition update {A} (m : string -> A) (k : string) (v : A) : string -> A :=
  fun k' => if String.eqb k' k then v else m k'.

(** [df['H_t'] = df.groupby('Sex')['Rate'].cumsum()]: the running sum of the
    rates of the group; a NaN rate gives NaN and leaves the running sum as it
    is. *)
Fixpoint assign_H_t (acc : string -> R) (df : DataFrame) : DataFrame :=
  match df with
  | [] => []
  | r :: rest =>
      match Rate r with
      | None => set_H_t r None :: assign_H_t acc rest
      | Some x =>
          let t := (acc (Sex r) + x)%R in
          set_H_t r (Some t) :: assign_H_t (update acc (Sex r) t) rest
      end
  end.

(** [df['S_t'] = df['H_t'].apply(lambda x: np.exp(-x))], with the real
    exponential, which is positive everywhere; [np.exp] reaches 0 for a
    large argument, which is not modelled. *)
Definition assign_S_t (df : DataFrame) : DataFrame :=
  map (fun r => set_S_t r (option_map (fun x => exp (- x)) (H_t r))) df.

(** [df['F_t'] = 1 - df['S_t']] *)
Definition assign_F_t (df : DataFrame) : DataFrame :=
  map (fun r => set_F_t r (option_map (fun s => (1 - s)%R) (S_t r))) df.

Definition sub (a b : cell) : cell :=
  match a, b with
  | Some x, Some y => Some (x - y)%R
  | _, _ => None
  end.

Definition fillna (a other : cell) : cell :=
  match a with
  | Some _ => a
  | None => other
  end.

(** [df['p_t'] = df.groupby('Sex')['F_t'].diff().fillna(df['F_t'])]: [F_t]
    minus the [F_t] of the previous row of the group, NaN on the first row of
    a group; every NaN is then replaced by the [F_t] of its row.  [prev] holds
    the last [F_t] seen in each group. *)
Fixpoint assign_p_t (prev : string -> option cell) (df : DataFrame) : DataFrame :=
  match df with
  | [] => []
  | r :: rest =>
      let diff :=
        match prev (Sex r) with
        | None => None
        | Some f => sub (F_t r) f
        end in
      set_p_t r (fillna diff (F_t r))
        :: assign_p_t (update prev (Sex r) (Some (F_t r))) rest
  end.

(** [df.groupby(["Sex"]).tail(1)]: the last row of every group, in the order
    of the frame. *)
Fixpoint groupby_tail_1 (df : DataFrame) : DataFrame :=
  match df with
  | [] => []
  | r :: rest =>
      if existsb (fun r' => String.eqb (Sex r') (Sex r)) rest
      then groupby_tail_1 rest
      else r :: groupby_tail_1 rest
  end.

(** A sum that skips NaN, as [sum()] does by default. *)
Definition sum_skipna (cells : list cell) : R :=
  fold_right (fun c acc => match c with Some v => (v + acc)%R | None => acc end)
             0%R cells.

(** Lines 22 to 37: the frame of the year 2015, sorted, with the columns
    [H_t], [S_t], [F_t] and [p_t]. *)
Definition sorted_2015 (df_mort_data_raw : DataFrame) : DataFrame :=
  sort_values (query_Year_2015 df_mort_data_raw).

Definition df_mort_data_1 (df_mort_data_raw : DataFrame) : DataFrame :=
  assign_p_t (fun _ => None)
    (assign_F_t (assign_S_t (assign_H_t (fun _ => 0%R)
       (sorted_2015 df_mort_data_raw)))).

(** Lines 46 to 51, on one row of [tail(1)]. *)
Definition terminal_row (r : row) : row :=
  let r := set_Age r 101 in
  let r := set_p_t r (option_map (fun f => (1 - f)%R) (F_t r)) in
  let r := set_F_t r (Some (sum_skipna [F_t r; p_t r])) in
  let r := set_S_t r (option_map (fun f => (1 - f)%R) (F_t r)) in
  let r := set_H_t r None in
  set_Rate (set_H_t r None) None.

(** Lines 44 to 51. *)
Definition df_mort_append_0 (df_mort_data_raw : DataFrame) : DataFrame :=
  map terminal_row (groupby_tail_1 (df_mort_data_1 df_mort_data_raw)).

(** Lines 55 to 57. *)
Definition df_mort_data_2 (df_mort_data_raw : DataFrame) : DataFrame :=
  sort_values (df_mort_data_1 df_mort_data_raw ++ df_mort_append_0 df_mort_data_raw).

(** [df.groupby(["Sex"])["p_t"].sum()] at one group, the check of lines 40
    and 60. *)
Definition stratum (s : string) (df : DataFrame) : DataFrame :=
  filter (fun r => String.eqb (Sex r) s) df.

Definition p_t_sum (s : string) (df : DataFrame) : R :=
  sum_skipna (map p_t (stratum s df)).

(** ** The wide table (02 and 03, lines 62 to 70) *)

(** The values a pivot is keyed on: the index [Year], [Sex] and the column
    label [Age]. *)
Definition pivot_key (r : row) : Z * string * Z := (Year r, Sex r, Age r).

Definition key_eqb (a b : Z * string * Z) : bool :=
  let '(y1, s1, a1) := a in
  let '(y2, s2, a2) := b in
  (y1 =? y2)%Z && String.eqb s1 s2 && (a1 =? a2)%Z.

Fixpoint has_duplicates (keys : list (Z * string * Z)) : bool :=
  match keys with
  | [] => false
  | k :: rest => existsb (key_eqb k) rest || has_duplicates rest
  end.

(** The distinct values of a list in increasing order, as pandas orders the
    index and the columns of a pivot. *)
Fixpoint insert_unique {A} (cmp : A -> A -> comparison) (x : A) (l : list A) : list A :=
  match l with
  | [] => [x]
  | y :: rest =>
      match cmp x y with
      | Lt => x :: y :: rest
      | Eq => y :: rest
      | Gt => y :: insert_unique cmp x rest
      end
  end.

Definition sort_unique {A} (cmp : A -> A -> comparison) (l : list A) : list A :=
  fold_right (insert_unique cmp) [] l.

Definition index_compare (a b : Z * string) : comparison :=
  match Z.compare (fst a) (fst b) with
  | Eq => String.compare (snd a) (snd b)
  | c => c
  end.

(** One row of the wide table: its [Year], its [Sex], and one cell for every
    age column. *)
Record wide_row : Type := mkWideRow {
  w_Year : Z;
  w_Sex : string;
  w_values : list cell
}.

Record wide_frame : Type := mkWide {
  w_columns : list Z;
  w_rows : list wide_row
}.

(** The [p_t] of the row with the given keys, NaN when there is none. *)
Definition value_at (df : DataFrame) (y : Z) (s : string) (a : Z) : cell :=
  match find (fun r => key_eqb (pivot_key r) (y, s, a)) df with
  | Some r => p_t r
  | None => None
  end.

(** [df.pivot(columns = "Age", index = ["Year", "Sex"], values = "p_t")]
    followed by [reset_index]: pandas raises [ValueError] when two rows have
    the same keys. *)
Definition pivot (df : DataFrame) : exn + wide_frame :=
  if has_duplicates (map pivot_key df)
  then inl ValueError
  else
    let columns := sort_unique Z.compare (map Age df) in
    let index := sort_unique index_compare (map (fun r => (Year r, Sex r)) df) in
    inr (mkWide columns
           (map (fun i => mkWideRow (fst i) (snd i)
                            (map (value_at df (fst i) (snd i)) columns))
                index)).

Definition df_mort_data_2_wide (df_mort_data_raw : DataFrame) : exn + wide_frame :=
  pivot (df_mort_data_2 df_mort_data_raw).
(** * Vocabulary of the statements *)

(** ** For the sampler *)

(** The draws a call on [n] rows takes from the generator of [w]. *)
Definition draws_of (w : world) (n : nat) : column :=
  map (fun i => Fin (stream (random w) i)) (seq (consumed (random w)) n).

(** The state a call on [n] rows leaves behind. *)
Definition after_call (w : world) (correction : string) (n : nat) : world :=
  mkWorld (mkRandomState (stream (random w)) (consumed (random w) + n))
          (if mem correction valid_correction then stdout w
           else stdout w ++ [warning]).

Definition labels (a_probs : ndarray2) (a_categories : option ndarray1) :=
  match a_categories with
  | None => arange (shape1 a_probs)
  | Some c => c
  end.

(** A probability matrix as numpy has it: at least one row, all rows of the
    same length, at least one column. *)
Definition well_formed (a_probs : ndarray2) : Prop :=
  a_probs <> [] /\ rectangular a_probs /\ 0 < shape1 a_probs.

Definition nonnegative (a_probs : ndarray2) : Prop :=
  Forall (Forall (fun x => ge x (Fin 0) = true)) a_probs.

(** A world whose generator hands out the given draws, then zeros. *)
Definition world_of (draws : list Q) : world :=
  mkWorld (mkRandomState (fun i => nth i draws 0%Q) 0) [].

(** The one-row matrix [[1/2, 1/2 - 2^-20]] with the draw [1 - 2^-21]. *)
Definition shortfall_matrix : ndarray2 :=
  [[Fin (1 # 2); Fin (524287 # 1048576)]].
Definition shortfall_draw : Q := (2097151 # 2097152)%Q.

(** Two rows that put all their mass on column 0 and on column 1. *)
Definition two_point_matrix : ndarray2 := [[Fin 1; Fin 0]; [Fin 0; Fin 1]].

Definition zero_row (row : list float) : Prop :=
  Forall (fun x => exists q, x = Fin q /\ (q == 0)%Q) row.

(** ** For the life table *)

(** The curves of a stratum whose rates, in the order of the sorted frame,
    are [rates]: [cumulative_hazard rates t] is the sum of the rates up to
    and including position [t]. *)
Definition cumulative_hazard (rates : list R) (t : nat) : R :=
  fold_right Rplus 0%R (firstn (S t) rates).

Definition survival (rates : list R) (t : nat) : R :=
  exp (- cumulative_hazard rates t).

Definition failure (rates : list R) (t : nat) : R :=
  (1 - survival rates t)%R.

Definition mass (rates : list R) (t : nat) : R :=
  match t with
  | 0 => failure rates 0
  | S t' => (failure rates t - failure rates t')%R
  end.

(** The stratum "A" with the increments 0.01, 0.02 and 0.03. *)
Definition table_A : list record :=
  [ mkRecord "A" 2015 0 (Some (1 / 100)%R);
    mkRecord "A" 2015 1 (Some (2 / 100)%R);
    mkRecord "A" 2015 2 (Some (3 / 100)%R) ].

(** The same stratum with the rate of age 1 missing. *)
Definition table_A_missing : list record :=
  [ mkRecord "A" 2015 0 (Some (1 / 2)%R);
    mkRecord "A" 2015 1 None;
    mkRecord "A" 2015 2 (Some (1 / 2)%R) ].

(** Row [t] of the stratum once the four columns are assigned. *)
Definition curve_row (rates : list R) (t : nat) (r : row) : row :=
  mkRow (Sex r) (Year r) (Age r) (Rate r)
        (Some (cumulative_hazard rates t)) (Some (survival rates t))
        (Some (failure rates t)) (Some (mass rates t)).

(** ** For the further properties *)

(** A row of finite, non-negative entries. *)
Definition finite_nonneg (row : list float) : Prop :=
  Forall (fun x => exists q, x = Fin q /\ (0 <= q)%Q) row.

(** The running sums of [np.cumsum] on rationals. *)
Fixpoint qcumsum_from (acc : Q) (l : list Q) : list Q :=
  match l with
  | [] => []
  | x :: rest => let s := Qred (acc + x) in s :: qcumsum_from s rest
  end.

Definition qcumsum (l : list Q) : list Q :=
  match l with
  | [] => []
  | x :: rest => x :: qcumsum_from x rest
  end.

(** A stratum whose records reach the age 101. *)
Definition table_A_to_101 : list record :=
  [ mkRecord "A" 2015 100 (Some (1 / 2)%R);
    mkRecord "A" 2015 101 (Some (1 / 2)%R) ].
(** * Properties of the sampler *)

(** ** [np.argmax] on booleans *)

Lemma argmax_from_true (bi i : nat) (row : list bool) :
  argmax_from true bi i row = bi.
Proof.
  revert i. induction row as [|b rest IH]; intro i; simpl; auto.
Qed.

Lemma argmax_from_false_lt (bi i : nat) (row : list bool) :
  let p := argmax_from false bi i row in
  (p = bi /\ Forall (fun b => b = false) row) \/
  (i <= p < i + length row /\ nth_error row (p - i) = Some true /\
   forall j, j < p - i -> nth_error row j = Some false).
Proof.
  revert i. induction row as [|b rest IH]; intro i; simpl.
  - left. split; auto.
  - destruct b; simpl.
    + right. rewrite argmax_from_true. replace (i - i) with 0 by lia.
      repeat split; try lia.
    + destruct (IH (S i)) as [[E F]|[R [T L]]].
      * left. split; auto.
      * right. set (p := argmax_from false bi (S i) rest) in *.
        replace (p - i) with (S (p - S i)) by lia. simpl.
        repeat split; try lia; auto.
        intros [|j] Hj; simpl; auto. apply L. lia.
Qed.

(** The index [np.argmax] returns on a non-empty row of booleans: the first
    [true] entry when there is one, otherwise 0. *)
Lemma argmax_first_true (row : list bool) (p : nat) :
  argmax row = inr p ->
  p < length row /\
  ((exists j, nth_error row j = Some true) ->
     nth_error row p = Some true /\
     forall j, j < p -> nth_error row j = Some false) /\
  ((forall j, nth_error row j <> Some true) -> p = 0).
Proof.
  destruct row as [|b rest]; simpl; [discriminate|].
  intro E. injection E as <-. destruct b.
  - rewrite argmax_from_true. repeat split; try lia.
  - destruct (argmax_from_false_lt 0 1 rest) as [[E F]|[R [T L]]].
    + rewrite E. split; [lia|]. split; auto.
      intros [[|j] Hj]; simpl in Hj; [discriminate|].
      apply nth_error_In in Hj. rewrite Forall_forall in F.
      apply F in Hj. discriminate.
    + set (p := argmax_from false 0 1 rest) in *.
      split; [simpl; lia|]. split.
      * intros _. destruct p as [|p]; [lia|]. simpl.
        replace (S p - 1) with p in * by lia. split; auto.
        intros [|j] Hj; simpl; auto. apply L. lia.
      * intro N. exfalso. apply (N (S (p - 1))). simpl. exact T.
Qed.

Lemma argmax_nonempty (row : list bool) :
  row <> [] -> exists p, argmax row = inr p.
Proof.
  destruct row; [congruence|]. intros _. simpl. eauto.
Qed.

Lemma argmax_axis1_rows (a : list (list bool)) :
  Forall (fun row => row <> []) a ->
  exists ps, argmax_axis1 a = inr ps /\
    Forall2 (fun row p => argmax row = inr p) a ps.
Proof.
  induction 1 as [|row a' Hrow _ IH]; simpl.
  - exists []. auto.
  - destruct (argmax_nonempty Hrow) as [p Ep].
    destruct IH as [ps [Eps F]]. rewrite Ep, Eps.
    exists (p :: ps). auto.
Qed.

(** ** One call of [nps_nhpp], step by step *)

Lemma normalized_length (a : ndarray2) : length (normalized a) = length a.
Proof.
  unfold normalized, div_keepdims.
  destruct (negb _); [apply length_map | reflexivity].
Qed.

Lemma normalized_row_length (a : ndarray2) (r : nat) (row : list float) :
  nth_error (normalized a) r = Some row ->
  exists row0, nth_error a r = Some row0 /\ length row = length row0.
Proof.
  unfold normalized, div_keepdims. destruct (negb _).
  - rewrite nth_error_map. destruct (nth_error a r) as [row0|]; simpl; [|discriminate].
    intro E. injection E as <-. exists row0. split; auto. apply length_map.
  - intro E. exists row. auto.
Qed.

Lemma nps_nhpp_run (a_probs : ndarray2) (correction : string)
    (a_categories : option ndarray1) (w : world) :
  a_probs <> [] ->
  let u := draws_of w (shape0 a_probs) in
  nps_nhpp a_probs correction a_categories w =
    (match argmax_axis1 (ge_col (cumsum_axis1 (normalized a_probs)) u) with
     | inl e => inl e
     | inr positions =>
         match take (labels a_probs a_categories) positions with
         | inl e => inl e
         | inr cv =>
             inr (if String.eqb correction "uniform"
                  then Arr2 (add_row_col cv u) else Arr1 cv)
         end
     end,
     after_call w correction (shape0 a_probs)).
Proof.
  intros Hne u. unfold nps_nhpp, bind, after_call, labels.
  assert (Hw : forall w1, random w1 = random w ->
     random_uniform (shape0 (normalized a_probs)) w1 =
       (inr u, mkWorld (mkRandomState (stream (random w))
                         (consumed (random w) + shape0 a_probs)) (stdout w1))).
  { intros w1 E. unfold random_uniform, u, draws_of, shape0.
    rewrite normalized_length, E. reflexivity. }
  assert (Hu : vstack u = inr u).
  { unfold u, draws_of, shape0. destruct a_probs; [congruence|]. reflexivity. }
  destruct (mem correction valid_correction); unfold negb, print, ret;
    rewrite Hw by reflexivity; unfold lift; rewrite Hu; cbv beta iota;
    destruct (argmax_axis1 _) as [e|positions]; try reflexivity;
    destruct (take _ positions) as [e|cv]; try reflexivity;
    destruct (String.eqb correction "uniform"); reflexivity.
Qed.

Lemma ge_col_nth (a : ndarray2) (c : column) (r : nat) (row : list float) (u : float) :
  nth_error a r = Some row -> nth_error c r = Some u ->
  nth_error (ge_col a c) r = Some (map (fun x => ge x u) row).
Proof.
  revert c r. induction a as [|row0 a' IH]; intros c [|r]; simpl; try discriminate;
    destruct c as [|u0 c']; simpl; try discriminate.
  - intros E1 E2. injection E1 as ->. injection E2 as ->. reflexivity.
  - apply IH.
Qed.

Lemma ge_col_length (a : ndarray2) (c : column) :
  length a = length c -> length (ge_col a c) = length a.
Proof.
  revert c. induction a as [|row a' IH]; intros [|u c']; simpl; try discriminate; auto.
Qed.

Lemma ge_col_rows_nonempty (a : ndarray2) (c : column) :
  Forall (fun row => row <> []) a ->
  Forall (fun row => row <> []) (ge_col a c).
Proof.
  intro F. revert c. induction F as [|row a' Hrow _ IH]; intros [|u c']; simpl; auto.
  constructor; auto. destruct row; [congruence|discriminate].
Qed.

Lemma cumsum_from_length (acc : float) (row : list float) :
  length (cumsum_from acc row) = length row.
Proof.
  revert acc. induction row; intro acc; simpl; auto.
Qed.

Lemma cumsum_length (row : list float) : length (cumsum row) = length row.
Proof.
  destruct row; simpl; auto. now rewrite cumsum_from_length.
Qed.

Lemma draws_of_length (w : world) (n : nat) : length (draws_of w n) = n.
Proof.
  unfold draws_of. now rewrite length_map, length_seq.
Qed.

Lemma draws_of_nth (w : world) (n r : nat) :
  r < n ->
  nth_error (draws_of w n) r = Some (Fin (stream (random w) (consumed (random w) + r))).
Proof.
  intro H. unfold draws_of. rewrite nth_error_map, nth_error_seq.
  destruct (Nat.ltb_spec r n); [reflexivity | lia].
Qed.

Lemma take_spec (v : ndarray1) (positions : list nat) (out : ndarray1) :
  take v positions = inr out ->
  Forall2 (fun p x => nth_error v p = Some x) positions out.
Proof.
  revert out. induction positions as [|p ps IH]; simpl; intros out E.
  - injection E as <-. constructor.
  - destruct (nth_error v p) as [x|] eqn:Ex; [|discriminate].
    destruct (take v ps) as [e|xs]; [discriminate|].
    injection E as <-. constructor; auto.
Qed.

Lemma take_in_range (v : ndarray1) (positions : list nat) :
  Forall (fun p => p < length v) positions ->
  exists out, take v positions = inr out.
Proof.
  induction 1 as [|p ps Hp _ [out E]]; simpl; eauto.
  destruct (nth_error v p) as [x|] eqn:Ex.
  - rewrite E. eauto.
  - apply nth_error_None in Ex. lia.
Qed.

Lemma arange_nth (n p : nat) : p < n -> nth_error (arange n) p = Some (of_nat p).
Proof.
  intro H. unfold arange. rewrite nth_error_map, nth_error_seq.
  destruct (Nat.ltb_spec p n); [reflexivity | lia].
Qed.

Lemma arange_length (n : nat) : length (arange n) = n.
Proof.
  unfold arange. now rewrite length_map, length_seq.
Qed.

(** ** Calls on a well-formed matrix *)

Lemma well_formed_rows (a : ndarray2) (r : nat) (row : list float) :
  well_formed a -> nth_error (normalized a) r = Some row ->
  length row = shape1 a /\ r < shape0 a.
Proof.
  intros (_ & R & _) E.
  destruct (normalized_row_length a r E) as (row0 & E0 & L).
  split.
  - rewrite L. unfold rectangular in R. rewrite Forall_forall in R.
    apply R. eapply nth_error_In; eauto.
  - apply nth_error_Some. congruence.
Qed.

Lemma Forall2_nth_left {A B} (R : A -> B -> Prop) (l : list A) (l' : list B) :
  Forall2 R l l' ->
  forall r x, nth_error l r = Some x ->
  exists y, nth_error l' r = Some y /\ R x y.
Proof.
  induction 1 as [|x0 y0 l l' H0 _ IH]; intros [|r] x E; simpl in E; try discriminate.
  - injection E as <-. exists y0. auto.
  - simpl. apply IH. exact E.
Qed.

(** The positions line 85 computes, row by row. *)
Lemma positions_rows (a : ndarray2) (w : world) :
  well_formed a ->
  exists positions,
    argmax_axis1 (ge_col (cumsum_axis1 (normalized a)) (draws_of w (shape0 a)))
      = inr positions /\
    length positions = shape0 a /\
    forall r row, nth_error (normalized a) r = Some row ->
      exists p, nth_error positions r = Some p /\
        argmax (map (fun x => ge x (Fin (stream (random w) (consumed (random w) + r))))
                    (cumsum row)) = inr p.
Proof.
  intro WF.
  destruct (@argmax_axis1_rows
              (ge_col (cumsum_axis1 (normalized a)) (draws_of w (shape0 a))))
    as (ps & E & F).
  { apply ge_col_rows_nonempty. unfold cumsum_axis1. rewrite Forall_map.
    rewrite Forall_forall. intros row Hin.
    destruct (In_nth_error _ _ Hin) as [r Hr].
    destruct (well_formed_rows r WF Hr) as [L _].
    destruct WF as (_ & _ & K). intro E. apply (f_equal (@length _)) in E.
    rewrite cumsum_length in E. simpl in E. lia. }
  assert (Lg : length (ge_col (cumsum_axis1 (normalized a)) (draws_of w (shape0 a)))
               = shape0 a).
  { rewrite ge_col_length; unfold cumsum_axis1; rewrite length_map, normalized_length;
      [reflexivity | now rewrite draws_of_length]. }
  exists ps. split; [exact E|]. split.
  - rewrite <- (Forall2_length F). exact Lg.
  - intros r row Hr. destruct (well_formed_rows r WF Hr) as [_ Hlt].
    assert (G : nth_error (ge_col (cumsum_axis1 (normalized a)) (draws_of w (shape0 a))) r
                = Some (map (fun x => ge x (Fin (stream (random w) (consumed (random w) + r))))
                            (cumsum row))).
    { apply ge_col_nth.
      - unfold cumsum_axis1. rewrite nth_error_map, Hr. reflexivity.
      - apply draws_of_nth. exact Hlt. }
    destruct (Forall2_nth_left F r G) as (p & Ep & A). eauto.
Qed.

Lemma positions_in_range (a : ndarray2) (w : world) (positions : list nat) :
  well_formed a ->
  argmax_axis1 (ge_col (cumsum_axis1 (normalized a)) (draws_of w (shape0 a)))
    = inr positions ->
  Forall (fun p => p < shape1 a) positions.
Proof.
  intros WF E. destruct (positions_rows w WF) as (ps & E' & L & Rows).
  rewrite E in E'. injection E' as <-.
  rewrite Forall_forall. intros p Hin.
  destruct (In_nth_error _ _ Hin) as [r Hr].
  assert (Hlt : r < length (normalized a)).
  { rewrite normalized_length. unfold shape0 in L. rewrite <- L.
    apply nth_error_Some. congruence. }
  destruct (nth_error (normalized a) r) as [row|] eqn:Er;
    [|apply nth_error_None in Er; lia].
  destruct (Rows r row Er) as (p' & Ep' & A). rewrite Hr in Ep'. injection Ep' as <-.
  apply argmax_first_true in A. destruct A as [A _].
  rewrite length_map, cumsum_length in A.
  destruct (well_formed_rows r WF Er) as [Lr _]. lia.
Qed.

(** On a well-formed matrix with enough labels the call returns: the labels
    at the positions, or, with the jitter, their broadcast sum with the
    column of draws. *)
Lemma nps_nhpp_returns (a : ndarray2) (correction : string)
    (a_categories : option ndarray1) (w : world) :
  well_formed a ->
  shape1 a <= length (labels a a_categories) ->
  exists positions cv,
    argmax_axis1 (ge_col (cumsum_axis1 (normalized a)) (draws_of w (shape0 a)))
      = inr positions /\
    take (labels a a_categories) positions = inr cv /\
    nps_nhpp a correction a_categories w =
      (inr (if String.eqb correction "uniform"
            then Arr2 (add_row_col cv (draws_of w (shape0 a)))
            else Arr1 cv),
       after_call w correction (shape0 a)).
Proof.
  intros WF HL. destruct (positions_rows w WF) as (ps & E & L & Rows).
  pose proof (positions_in_range w WF E) as B.
  destruct (@take_in_range (labels a a_categories) ps) as [cv T].
  { eapply Forall_impl; [|exact B]. simpl. intros; lia. }
  exists ps, cv. split; [exact E|]. split; [exact T|].
  rewrite nps_nhpp_run by (destruct WF; auto). rewrite E, T. reflexivity.
Qed.

Lemma take_arange (n : nat) (positions : list nat) :
  Forall (fun p => p < n) positions ->
  take (arange n) positions = inr (map of_nat positions).
Proof.
  induction 1 as [|p ps Hp _ IH]; simpl; auto.
  rewrite arange_nth by exact Hp. rewrite IH. reflexivity.
Qed.

(** With the default labels, row [r] of the result is the position of row
    [r] as a number. *)
Lemma nps_nhpp_default_labels (a : ndarray2) (correction : string) (w : world) :
  well_formed a ->
  exists positions,
    argmax_axis1 (ge_col (cumsum_axis1 (normalized a)) (draws_of w (shape0 a)))
      = inr positions /\
    Forall (fun p => p < shape1 a) positions /\
    nps_nhpp a correction None w =
      (inr (if String.eqb correction "uniform"
            then Arr2 (add_row_col (map of_nat positions) (draws_of w (shape0 a)))
            else Arr1 (map of_nat positions)),
       after_call w correction (shape0 a)).
Proof.
  intro WF.
  destruct (@nps_nhpp_returns a correction None w WF) as (ps & cv & E & T & Run).
  { simpl. now rewrite arange_length. }
  pose proof (positions_in_range w WF E) as B.
  simpl in T. rewrite (take_arange B) in T. injection T as <-.
  exists ps. auto.
Qed.

(** ** C1: the sampled index *)

(** The index lines 79 to 87 compute.  For every probability matrix with at
    least one row and one column, a call with the default labels and without
    the jitter returns, and the index it reports for row [r] is the smallest
    column whose cumulative probability in that row is [>=] the draw of the
    row, whenever there is such a column.  When there is none the index is
    0, the fall-through of [np.argmax] on a row without [True]. *)
Lemma sampled_index_first_reaching_draw :
  forall (a_probs : ndarray2) (correction : string) (w : world),
    well_formed a_probs ->
    correction <> "uniform"%string ->
    exists out,
      fst (nps_nhpp a_probs correction None w) = inr (Arr1 out) /\
      forall r row, nth_error (normalized a_probs) r = Some row ->
        let u := Fin (stream (random w) (consumed (random w) + r)) in
        let cum := cumsum row in
        exists p,
          nth_error out r = Some (of_nat p) /\
          p < shape1 a_probs /\
          ((exists j c, nth_error cum j = Some c /\ ge c u = true) ->
             (exists c, nth_error cum p = Some c /\ ge c u = true) /\
             (forall j c, j < p -> nth_error cum j = Some c -> ge c u = false)) /\
          ((forall j c, nth_error cum j = Some c -> ge c u = false) -> p = 0).
Proof.
  intros a correction w WF NU.
  destruct (nps_nhpp_default_labels correction w WF) as (ps & E & B & Run).
  destruct (positions_rows w WF) as (ps' & E' & L & Rows).
  rewrite E in E'. injection E' as <-.
  apply String.eqb_neq in NU. rewrite NU in Run.
  exists (map of_nat ps). split; [rewrite Run; reflexivity|].
  intros r row Hr u cum. destruct (Rows r row Hr) as (p & Ep & A).
  fold u cum in A. exists p. split; [rewrite nth_error_map, Ep; reflexivity|].
  split; [rewrite Forall_forall in B; apply B; eapply nth_error_In; eauto|].
  destruct (argmax_first_true _ A) as (_ & First & None).
  split.
  - intros (j & c & Ej & Gj).
    destruct First as [Tp Before].
    { exists j. rewrite nth_error_map, Ej. simpl. now rewrite Gj. }
    split.
    + rewrite nth_error_map in Tp. destruct (nth_error cum p) as [c'|]; [|discriminate].
      simpl in Tp. exists c'. split; [reflexivity | congruence].
    + intros j' c' Hlt Ej'. specialize (Before j' Hlt).
      rewrite nth_error_map, Ej' in Before. simpl in Before. congruence.
  - intro All. apply None. intros j. rewrite nth_error_map.
    destruct (nth_error cum j) as [c|] eqn:Ej; simpl; [|discriminate].
    rewrite (All j c Ej). discriminate.
Qed.

Example sampled_index_of_shortfall_matrix :
  exists out,
    fst (nps_nhpp shortfall_matrix "none" None (world_of [shortfall_draw]))
      = inr (Arr1 out) /\
    exists p, nth_error out 0 = Some (of_nat p) /\ p < 2.
Proof.
  destruct (@sampled_index_first_reaching_draw shortfall_matrix "none"
              (world_of [shortfall_draw])) as (out & E & Rows).
  - unfold well_formed, rectangular, shape1, shortfall_matrix. simpl.
    repeat split; [discriminate | repeat constructor | lia].
  - discriminate.
  - exists out. split; [exact E|].
    destruct (Rows 0 [Fin (1 # 2); Fin (524287 # 1048576)] eq_refl)
      as (p & Ep & Hp & _).
    exists p. split; [exact Ep | exact Hp].
Qed.

(** C1 at a draw above the last cumulative value.  The matrix has one row,
    two columns and non-negative entries; its row sums to [1 - 2^-20], which
    [np.isclose] accepts, so it is not rescaled; the draw [1 - 2^-21] exceeds
    the last cumulative value; and the sampled index is 0, the first
    category, where C1 asks for the last valid index
    [n_categories - 1 = 1]. *)
Theorem sampled_index_not_clamped_to_last :
  well_formed shortfall_matrix /\
  nonnegative shortfall_matrix /\
  map cumsum (normalized shortfall_matrix)
    = [[Fin (1 # 2); Fin (1048575 # 1048576)]] /\
  ge (Fin (1048575 # 1048576)) (Fin shortfall_draw) = false /\
  fst (nps_nhpp shortfall_matrix "none" None (world_of [shortfall_draw]))
    = inr (Arr1 [of_nat 0]) /\
  of_nat 0 <> of_nat (shape1 shortfall_matrix - 1).
Proof.
  split; [|split; [|split; [|split; [|split]]]].
  - unfold well_formed, rectangular, shape1, shortfall_matrix. simpl.
    repeat split; [discriminate | repeat constructor | lia].
  - repeat constructor.
  - vm_compute. reflexivity.
  - vm_compute. reflexivity.
  - vm_compute. reflexivity.
  - vm_compute. discriminate.
Qed.

(** ** C4 and C5: what the call returns *)

(** Without the jitter a call on a well-formed matrix returns one label per
    row, each taken from the labels in use. *)
Lemma none_returns_one_label_per_row (a_probs : ndarray2)
    (a_categories : option ndarray1) (w : world) :
  well_formed a_probs ->
  shape1 a_probs <= length (labels a_probs a_categories) ->
  exists out,
    fst (nps_nhpp a_probs "none" a_categories w) = inr (Arr1 out) /\
    length out = shape0 a_probs /\
    Forall (fun x => In x (labels a_probs a_categories)) out.
Proof.
  intros WF HL.
  destruct (nps_nhpp_returns "none" a_categories w WF HL) as (ps & cv & E & T & Run).
  exists cv. rewrite Run. split; [reflexivity|].
  apply take_spec in T. split.
  - rewrite <- (Forall2_length T).
    destruct (positions_rows w WF) as (ps' & E' & L & _). congruence.
  - clear E Run. induction T as [|p x ps' cv' Hp _ IH]; constructor; auto.
    eapply nth_error_In; eauto.
Qed.

Lemma add_row_col_shape (v : ndarray1) (c : column) :
  length (add_row_col v c) = length c /\
  Forall (fun row => length row = length v) (add_row_col v c).
Proof.
  unfold add_row_col. split; [apply length_map|].
  rewrite Forall_map, Forall_forall. intros u _. apply length_map.
Qed.

(** C4, the jitter branch as the code has it.  Line 90 adds the labels, of
    shape (n,), to the draws, which [np.vstack] left with shape (n, 1): the
    sum broadcasts, and the call returns a 2-D array of [n_rows] rows of
    [n_rows] entries each, not [n_rows] outputs. *)
Theorem uniform_returns_square_array :
  forall (a_probs : ndarray2) (w : world),
    well_formed a_probs ->
    exists out,
      fst (nps_nhpp a_probs "uniform" None w) = inr (Arr2 out) /\
      length out = shape0 a_probs /\
      Forall (fun row => length row = shape0 a_probs) out.
Proof.
  intros a w WF.
  destruct (nps_nhpp_default_labels "uniform" w WF) as (ps & E & B & Run).
  simpl in Run. eexists. rewrite Run. split; [reflexivity|].
  destruct (add_row_col_shape (map of_nat ps) (draws_of w (shape0 a))) as [L R].
  rewrite draws_of_length in L. split; [exact L|].
  eapply Forall_impl; [|exact R]. simpl. intros row ->.
  rewrite length_map. destruct (positions_rows w WF) as (ps' & E' & L' & _). congruence.
Qed.

Lemma two_point_matrix_well_formed : well_formed two_point_matrix.
Proof.
  unfold well_formed, rectangular, shape1, two_point_matrix. simpl.
  repeat split; [discriminate | repeat constructor | lia].
Qed.

Lemma uniform_returns_square_array_witness :
  exists out,
    fst (nps_nhpp two_point_matrix "uniform" None (world_of [(1 # 2)%Q; (1 # 4)%Q]))
      = inr (Arr2 out) /\
    length out = 2 /\
    Forall (fun row => length row = 2) out.
Proof.
  exact (@uniform_returns_square_array two_point_matrix
           (world_of [(1 # 2)%Q; (1 # 4)%Q]) two_point_matrix_well_formed).
Defined.

(** C5, the jitter branch at a two-row input.  Row 0 selects label 0 and
    draws 1/2, row 1 selects label 1 and draws 1/4.  The call returns the
    2 x 2 array of every label plus every draw: its row 0 holds [0 + 1/2] and
    also [1 + 1/2], the label of row 1 with the draw of row 0, which lies
    outside [0, 1), the interval of the category selected for row 0. *)
Theorem uniform_adds_every_draw_to_every_label :
  fst (nps_nhpp two_point_matrix "none" None (world_of [(1 # 2)%Q; (1 # 4)%Q]))
    = inr (Arr1 [Fin 0; Fin 1]) /\
  fst (nps_nhpp two_point_matrix "uniform" None (world_of [(1 # 2)%Q; (1 # 4)%Q]))
    = inr (Arr2 [[Fin (1 # 2); Fin (3 # 2)]; [Fin (1 # 4); Fin (5 # 4)]]) /\
  ge (Fin (3 # 2)) (Fin (0 + 1)) = true.
Proof.
  repeat split; vm_compute; reflexivity.
Qed.

(** ** C7: an unrecognized correction mode *)

Lemma nps_nhpp_no_rows (correction : string) (a_categories : option ndarray1)
    (w : world) :
  nps_nhpp [] correction a_categories w =
    (inl ValueError, after_call w correction 0).
Proof.
  unfold nps_nhpp, bind, after_call.
  destruct (mem correction valid_correction); reflexivity.
Qed.

(** C7, as the code has it.  A correction value other than ['none'] and
    ['uniform'] raises nothing: the call prints the warning and its outcome,
    a result or an exception, is the one of the same call with ['none']. *)
Theorem unrecognized_correction_warns_and_samples :
  forall (a_probs : ndarray2) (correction : string)
         (a_categories : option ndarray1) (w : world),
    mem correction valid_correction = false ->
    stdout (snd (nps_nhpp a_probs correction a_categories w))
      = stdout w ++ [warning] /\
    fst (nps_nhpp a_probs correction a_categories w)
      = fst (nps_nhpp a_probs "none" a_categories w).
Proof.
  intros a correction cats w Hmem.
  assert (NU : String.eqb correction "uniform" = false).
  { unfold mem, valid_correction in Hmem. simpl in Hmem.
    destruct (String.eqb correction "none"); [discriminate|].
    destruct (String.eqb correction "uniform"); [discriminate|reflexivity]. }
  destruct a as [|row a'].
  - rewrite !nps_nhpp_no_rows. unfold after_call. rewrite Hmem. auto.
  - rewrite !nps_nhpp_run by discriminate. unfold after_call. rewrite Hmem.
    split; [reflexivity|]. simpl fst. rewrite NU. reflexivity.
Qed.

Lemma unrecognized_correction_warns_and_samples_witness :
  stdout (snd (nps_nhpp [[Fin 1]] "foo" None (world_of [(1 # 2)%Q])))
    = [] ++ [warning] /\
  fst (nps_nhpp [[Fin 1]] "foo" None (world_of [(1 # 2)%Q]))
    = fst (nps_nhpp [[Fin 1]] "none" None (world_of [(1 # 2)%Q])).
Proof.
  exact (@unrecognized_correction_warns_and_samples [[Fin 1]] "foo" None
           (world_of [(1 # 2)%Q]) eq_refl).
Defined.

(** C7 as stated fails: with the mode ['foo'] the call on [[1.0]] raises
    nothing and returns a sampled result, the label 0. *)
Lemma unrecognized_correction_returns_a_sample :
  mem "foo" valid_correction = false /\
  fst (nps_nhpp [[Fin 1]] "foo" None (world_of [(1 # 2)%Q]))
    = inr (Arr1 [Fin 0]).
Proof.
  split; vm_compute; reflexivity.
Qed.

(** ** C9: determinism given the draws *)

Lemma draws_of_ext (w1 w2 : world) (n : nat) :
  (forall i, i < n ->
     stream (random w1) (consumed (random w1) + i)
       = stream (random w2) (consumed (random w2) + i)) ->
  draws_of w1 n = draws_of w2 n.
Proof.
  unfold draws_of. generalize (consumed (random w1)) (consumed (random w2)).
  induction n as [|n IH]; intros c1 c2 H; simpl; [reflexivity|].
  f_equal.
  - specialize (H 0 (Nat.lt_0_succ n)). rewrite !Nat.add_0_r in H. now rewrite H.
  - apply IH. intros i Hi. specialize (H (S i) (proj1 (Nat.succ_lt_mono _ _) Hi)).
    rewrite !Nat.add_succ_r in H. exact H.
Qed.

(** C9.  The result of a call is a function of the matrix, the labels, the
    mode and the draws the call consumes, one per row: two process states
    whose generators agree on these draws give identical outcomes. *)
Theorem same_draws_same_outputs :
  forall (a_probs : ndarray2) (correction : string)
         (a_categories : option ndarray1) (w1 w2 : world),
    (forall i, i < shape0 a_probs ->
       stream (random w1) (consumed (random w1) + i)
         = stream (random w2) (consumed (random w2) + i)) ->
    fst (nps_nhpp a_probs correction a_categories w1)
      = fst (nps_nhpp a_probs correction a_categories w2).
Proof.
  intros a correction cats w1 w2 H.
  destruct a as [|row a'].
  - rewrite !nps_nhpp_no_rows. reflexivity.
  - rewrite !nps_nhpp_run by discriminate.
    rewrite (draws_of_ext w1 w2 H). reflexivity.
Qed.

(** Two generators with the same first two draws and different later ones,
    the second with earlier output on its standard output. *)
Lemma same_draws_same_outputs_witness :
  fst (nps_nhpp two_point_matrix "uniform" None
         (world_of [(1 # 2)%Q; (1 # 4)%Q; (1 # 8)%Q]))
  = fst (nps_nhpp two_point_matrix "uniform" None
         (mkWorld (mkRandomState (fun i => nth i [(1 # 2)%Q; (1 # 4)%Q; (7 # 8)%Q] 0%Q) 0)
                  ["earlier output"%string])).
Proof.
  apply same_draws_same_outputs. intros i Hi. simpl.
  destruct i as [|[|i]]; [reflexivity | reflexivity |].
  unfold shape0, two_point_matrix in Hi. simpl in Hi. lia.
Defined.

(** ** Row sums *)

Lemma is_zero_true (s : Q) : (s == 0)%Q -> is_zero s = true.
Proof.
  intro H. unfold is_zero. apply Qeq_bool_iff. exact H.
Qed.

(** ** C6: renormalization *)

Lemma isclose1_tolerance (s : Q) :
  isclose1 (Fin s) = true <-> (Qabs (s - 1) <= 1001 # 100000000)%Q.
Proof.
  unfold isclose1. rewrite Qle_bool_iff.
  assert (T : (atol + rtol * Qabs 1 == 1001 # 100000000)%Q) by reflexivity.
  rewrite T. reflexivity.
Qed.

Lemma forallb_sums (a : ndarray2) :
  forallb isclose1 (sum_axis1 a) = true <->
  Forall (fun row => isclose1 (sum row) = true) a.
Proof.
  unfold sum_axis1. rewrite forallb_forall, Forall_forall. split.
  - intros H row Hin. apply H. apply in_map. exact Hin.
  - intros H x Hin. apply in_map_iff in Hin. destruct Hin as (row & <- & Hin). auto.
Qed.

(** C6, as the code has it.  The test is [np.isclose] with its default
    tolerances, [|s - 1| <= 1e-8 + 1e-5], and it is taken once for the whole
    matrix.  When every row sum passes, the matrix is used as it is.  When
    some row sum fails, every row, also one whose own sum passes, is divided
    by its own sum: no row is dropped.  The row [0.3, 0.3, 0.3] becomes
    [1/3, 1/3, 1/3]. *)
Theorem renormalization_is_all_or_nothing :
  forall (a_probs : ndarray2),
    (forall s, isclose1 (Fin s) = true <-> (Qabs (s - 1) <= 1001 # 100000000)%Q) /\
    (Forall (fun row => isclose1 (sum row) = true) a_probs ->
       normalized a_probs = a_probs) /\
    (Exists (fun row => isclose1 (sum row) = false) a_probs ->
       length (normalized a_probs) = length a_probs /\
       forall r row, nth_error a_probs r = Some row ->
         nth_error (normalized a_probs) r
           = Some (map (fun x => div x (sum row)) row)) /\
    normalized [[Fin (3 # 10); Fin (3 # 10); Fin (3 # 10)]]
      = [[Fin (1 # 3); Fin (1 # 3); Fin (1 # 3)]].
Proof.
  intro a. split; [exact isclose1_tolerance|]. split; [|split].
  - intro F. apply forallb_sums in F. unfold normalized. rewrite F. reflexivity.
  - intro Ex. split; [apply normalized_length|].
    assert (N : forallb isclose1 (sum_axis1 a) = false).
    { destruct (forallb isclose1 (sum_axis1 a)) eqn:E; [|reflexivity].
      apply forallb_sums in E. rewrite Forall_forall in E.
      apply Exists_exists in Ex. destruct Ex as (row & Hin & Hf).
      rewrite (E row Hin) in Hf. discriminate. }
    intros r row Hr.
    unfold normalized, div_keepdims. rewrite N. simpl.
    rewrite nth_error_map, Hr. reflexivity.
  - vm_compute. reflexivity.
Qed.

(** A matrix of two rows: the first sums to 0.9 and fails the test, the
    second sums to 1 and passes it; both are divided by their sums. *)
Lemma renormalization_is_all_or_nothing_witness :
  length (normalized [[Fin (3 # 10); Fin (3 # 10); Fin (3 # 10)];
                      [Fin (1 # 2); Fin (1 # 2)]]) = 2 /\
  nth_error (normalized [[Fin (3 # 10); Fin (3 # 10); Fin (3 # 10)];
                         [Fin (1 # 2); Fin (1 # 2)]]) 1
    = Some (map (fun x => div x (sum [Fin (1 # 2); Fin (1 # 2)]))
                [Fin (1 # 2); Fin (1 # 2)]).
Proof.
  destruct (renormalization_is_all_or_nothing
              [[Fin (3 # 10); Fin (3 # 10); Fin (3 # 10)]; [Fin (1 # 2); Fin (1 # 2)]])
    as (_ & _ & H & _).
  destruct H as [L Rows].
  - apply Exists_cons_hd. vm_compute. reflexivity.
  - split; [exact L|].
    exact (Rows 1 [Fin (1 # 2); Fin (1 # 2)] eq_refl).
Defined.

(** C6 as stated fails.  The row [1/2, 1/2 - 2^-20] sums to [1 - 2^-20],
    which is not within 1e-8 of 1; the row is nevertheless left as it is, and
    the sampling runs on a row that does not sum to 1. *)
Lemma row_off_by_more_than_1e_8_is_kept :
  sum [Fin (1 # 2); Fin (524287 # 1048576)] = Fin (1048575 # 1048576) /\
  ~ (Qabs ((1048575 # 1048576) - 1) <= 1 # 100000000)%Q /\
  normalized shortfall_matrix = shortfall_matrix /\
  ~ eqv (sum [Fin (1 # 2); Fin (524287 # 1048576)]) (Fin 1).
Proof.
  split; [vm_compute; reflexivity|]. split; [|split].
  - intro H. vm_compute in H. apply H. reflexivity.
  - vm_compute. reflexivity.
  - intro H. vm_compute in H. discriminate.
Qed.

(** ** C10: a row of zeros *)

Lemma zero_row_sum_from (row : list float) (a : Q) :
  zero_row row -> (a == 0)%Q ->
  exists s, fold_left add row (Fin a) = Fin s /\ (s == 0)%Q.
Proof.
  intro Z. revert a.
  induction Z as [|x row (q & -> & Hq) _ IH]; intros a Ha; cbn [fold_left add].
  - exists a. auto.
  - apply IH. rewrite Qred_correct, Ha, Hq. reflexivity.
Qed.

Lemma isclose1_zero (s : Q) : (s == 0)%Q -> isclose1 (Fin s) = false.
Proof.
  intro Hs. destruct (isclose1 (Fin s)) eqn:E; [|reflexivity].
  apply isclose1_tolerance in E. rewrite Hs in E. vm_compute in E.
  exfalso. apply E. reflexivity.
Qed.

(** A matrix with a row of zeros fails the test of line 68, and the division
    of line 69 turns that row into NaN. *)
Lemma zero_row_becomes_nan (a : ndarray2) (r : nat) (row : list float) :
  nth_error a r = Some row -> zero_row row ->
  nth_error (normalized a) r = Some (map (fun _ => NaN) row).
Proof.
  intros Hr Z. destruct (zero_row_sum_from Z (Qeq_refl 0)) as (s & Es & Hs).
  assert (N : forallb isclose1 (sum_axis1 a) = false).
  { destruct (forallb isclose1 (sum_axis1 a)) eqn:E; [|reflexivity].
    apply forallb_sums in E. rewrite Forall_forall in E.
    specialize (E row (nth_error_In _ _ Hr)). unfold sum in E.
    rewrite Es, (isclose1_zero Hs) in E. discriminate. }
  unfold normalized, div_keepdims. rewrite N. simpl.
  rewrite nth_error_map, Hr. simpl. f_equal. unfold sum. rewrite Es.
  clear Hr Es N. induction Z as [|x row (q & -> & Hq) _ IH]; simpl; [reflexivity|].
  rewrite (is_zero_true Hs), (is_zero_true Hq), IH. reflexivity.
Qed.

Lemma cumsum_from_nan (row : list float) :
  cumsum_from NaN (map (fun _ => NaN) row) = map (fun _ => NaN) row.
Proof.
  induction row as [|x row IH]; simpl; [reflexivity|]. now rewrite IH.
Qed.

Lemma cumsum_nan (row : list float) :
  cumsum (map (fun _ => NaN) row) = map (fun _ => NaN) row.
Proof.
  destruct row as [|x row]; simpl; [reflexivity|]. now rewrite cumsum_from_nan.
Qed.

Lemma add_row_col_nth (v : ndarray1) (c : column) (i r : nat)
    (rowi : list float) (x u : float) :
  nth_error (add_row_col v c) i = Some rowi ->
  nth_error c i = Some u -> nth_error v r = Some x ->
  nth_error rowi r = Some (add x u).
Proof.
  unfold add_row_col. rewrite nth_error_map. intros E Eu Ex.
  rewrite Eu in E. simpl in E. injection E as <-.
  rewrite nth_error_map, Ex. reflexivity.
Qed.

(** C10.  Let row [r] of a well-formed matrix consist of zeros.  Line 69
    divides the row by its zero sum, which leaves NaN in every entry of it;
    the call raises nothing; and the label reported for row [r] is the first
    one: entry [r] of the result without the jitter, and, with the jitter,
    column [r] of the broadcast sum holds the first label plus the draws. *)
Theorem zero_row_samples_first_category :
  forall (a_probs : ndarray2) (correction : string)
         (a_categories : option ndarray1) (w : world)
         (r : nat) (row : list float),
    well_formed a_probs ->
    shape1 a_probs <= length (labels a_probs a_categories) ->
    nth_error a_probs r = Some row ->
    zero_row row ->
    nth_error (normalized a_probs) r = Some (map (fun _ => NaN) row) /\
    exists first v,
      nth_error (labels a_probs a_categories) 0 = Some first /\
      fst (nps_nhpp a_probs correction a_categories w) = inr v /\
      match v with
      | Arr1 out =>
          correction <> "uniform"%string /\ nth_error out r = Some first
      | Arr2 out =>
          correction = "uniform"%string /\
          forall i rowi, nth_error out i = Some rowi ->
            nth_error rowi r
              = Some (add first (Fin (stream (random w) (consumed (random w) + i))))
      end.
Proof.
  intros a correction cats w r row WF HL Hr Z.
  pose proof (zero_row_becomes_nan a r Hr Z) as Hn.
  split; [exact Hn|].
  destruct (nps_nhpp_returns correction cats w WF HL) as (ps & cv & E & T & Run).
  destruct (positions_rows w WF) as (ps' & E' & L & Rows).
  rewrite E in E'. injection E' as <-.
  destruct (Rows r _ Hn) as (p & Ep & A).
  assert (P0 : p = 0).
  { destruct (argmax_first_true _ A) as (_ & _ & None). apply None.
    intros j. rewrite cumsum_nan, map_map, nth_error_map.
    destruct (nth_error row j); simpl; discriminate. }
  subst p. apply take_spec in T.
  destruct (Forall2_nth_left T r Ep) as (first & Ecv & E0).
  exists first. eexists. split; [exact E0|]. rewrite Run. split; [reflexivity|].
  destruct (String.eqb correction "uniform") eqn:U.
  - apply String.eqb_eq in U. split; [exact U|].
    intros i rowi Hi.
    assert (Hlt : i < shape0 a).
    { destruct (add_row_col_shape cv (draws_of w (shape0 a))) as [La _].
      rewrite draws_of_length in La. rewrite <- La. apply nth_error_Some. congruence. }
    eapply add_row_col_nth; [exact Hi | apply draws_of_nth; exact Hlt | exact Ecv].
  - apply String.eqb_neq in U. split; [exact U | exact Ecv].
Qed.

Lemma zero_row_samples_first_category_witness :
  nth_error (normalized [[Fin (1 # 2); Fin (1 # 2)]; [Fin 0; Fin 0]]) 1
    = Some [NaN; NaN] /\
  exists first v,
    nth_error (arange 2) 0 = Some first /\
    fst (nps_nhpp [[Fin (1 # 2); Fin (1 # 2)]; [Fin 0; Fin 0]] "none" None
           (world_of [(3 # 4)%Q; (1 # 4)%Q])) = inr v /\
    match v with
    | Arr1 out => "none"%string <> "uniform"%string /\ nth_error out 1 = Some first
    | Arr2 out =>
        "none"%string = "uniform"%string /\
        forall i rowi, nth_error out i = Some rowi ->
          nth_error rowi 1 = Some (add first (Fin (nth (0 + i) [(3 # 4)%Q; (1 # 4)%Q] 0%Q)))
    end.
Proof.
  apply (@zero_row_samples_first_category
           [[Fin (1 # 2); Fin (1 # 2)]; [Fin 0; Fin 0]] "none" None
           (world_of [(3 # 4)%Q; (1 # 4)%Q]) 1 [Fin 0; Fin 0]).
  - unfold well_formed, rectangular, shape1. simpl.
    repeat split; [discriminate | repeat constructor | lia].
  - apply Nat.leb_le. vm_compute. reflexivity.
  - reflexivity.
  - repeat constructor; eexists; (split; [reflexivity | reflexivity]).
Defined.

(** * Properties of the hazard-to-PMF transform *)

(** ** The grouped operations, one stratum at a time *)

Lemma update_same {A} (m : string -> A) (k : string) (v : A) :
  update m k v k = v.
Proof.
  unfold update. now rewrite String.eqb_refl.
Qed.

Lemma update_other {A} (m : string -> A) (k k' : string) (v : A) :
  k' <> k -> update m k v k' = m k'.
Proof.
  intro H. unfold update. apply String.eqb_neq in H. now rewrite H.
Qed.

Lemma stratum_all (s : string) (df : DataFrame) :
  Forall (fun r => Sex r = s) (stratum s df).
Proof.
  unfold stratum. rewrite Forall_forall. intros r Hin.
  apply filter_In in Hin. destruct Hin as [_ E]. now apply String.eqb_eq.
Qed.

Lemma stratum_assign_H_t (s : string) (df : DataFrame) :
  forall acc acc' : string -> R,
    acc s = acc' s ->
    stratum s (assign_H_t acc df) = assign_H_t acc' (stratum s df).
Proof.
  unfold stratum. induction df as [|r rest IH]; intros acc acc' E; [reflexivity|].
  cbn [assign_H_t filter]. destruct (Rate r) as [x|] eqn:Er; cbn [filter Sex set_H_t];
    destruct (String.eqb_spec (Sex r) s) as [Es|Ns]; cbn [assign_H_t]; rewrite ?Er.
  - rewrite Es, E. f_equal. apply IH. now rewrite !update_same.
  - apply IH. rewrite update_other by congruence. exact E.
  - f_equal. now apply IH.
  - now apply IH.
Qed.

Lemma stratum_assign_p_t (s : string) (df : DataFrame) :
  forall prev prev' : string -> option cell,
    prev s = prev' s ->
    stratum s (assign_p_t prev df) = assign_p_t prev' (stratum s df).
Proof.
  unfold stratum. induction df as [|r rest IH]; intros prev prev' E; [reflexivity|].
  cbn [assign_p_t filter Sex set_p_t].
  destruct (String.eqb_spec (Sex r) s) as [Es|Ns]; cbn [assign_p_t].
  - rewrite Es, E. f_equal. apply IH. now rewrite !update_same.
  - apply IH. rewrite update_other by congruence. exact E.
Qed.

Lemma stratum_assign_S_t (s : string) (df : DataFrame) :
  stratum s (assign_S_t df) = assign_S_t (stratum s df).
Proof.
  unfold stratum, assign_S_t. now rewrite filter_map_swap.
Qed.

Lemma stratum_assign_F_t (s : string) (df : DataFrame) :
  stratum s (assign_F_t df) = assign_F_t (stratum s df).
Proof.
  unfold stratum, assign_F_t. now rewrite filter_map_swap.
Qed.

Lemma stratum_terminal (s : string) (df : DataFrame) :
  stratum s (map terminal_row df) = map terminal_row (stratum s df).
Proof.
  unfold stratum. now rewrite filter_map_swap.
Qed.

Lemma existsb_stratum (s : string) (df : DataFrame) :
  existsb (fun r => String.eqb (Sex r) s) (stratum s df)
    = existsb (fun r => String.eqb (Sex r) s) df.
Proof.
  unfold stratum. induction df as [|r rest IH]; [reflexivity|].
  cbn [filter existsb]. destruct (String.eqb (Sex r) s) eqn:E; cbn [existsb].
  - now rewrite E.
  - exact IH.
Qed.

Lemma stratum_groupby_tail_1 (s : string) (df : DataFrame) :
  stratum s (groupby_tail_1 df) = groupby_tail_1 (stratum s df).
Proof.
  induction df as [|r rest IH]; [reflexivity|].
  cbn [groupby_tail_1]. unfold stratum at 2. cbn [filter].
  destruct (String.eqb_spec (Sex r) s) as [Es|Ns].
  - fold (stratum s rest). cbn [groupby_tail_1].
    rewrite Es, existsb_stratum.
    destruct (existsb _ rest); [exact IH|].
    unfold stratum at 1. cbn [filter]. rewrite Es, String.eqb_refl.
    f_equal. exact IH.
  - fold (stratum s rest).
    destruct (existsb _ rest); [exact IH|].
    unfold stratum at 1. cbn [filter].
    apply String.eqb_neq in Ns. rewrite Ns. exact IH.
Qed.

(** The rows of a stratum in [df_mort_data_1] come from the rows of the
    stratum in the sorted frame alone. *)
Lemma stratum_df_mort_data_1 (s : string) (raw : DataFrame) :
  stratum s (df_mort_data_1 raw)
    = assign_p_t (fun _ => None)
        (assign_F_t (assign_S_t (assign_H_t (fun _ => 0%R)
           (stratum s (sorted_2015 raw))))).
Proof.
  unfold df_mort_data_1.
  rewrite (stratum_assign_p_t s _ (fun _ => None) (fun _ => None) eq_refl).
  rewrite stratum_assign_F_t, stratum_assign_S_t.
  rewrite (stratum_assign_H_t s _ (fun _ => 0%R) (fun _ => 0%R) eq_refl).
  reflexivity.
Qed.

(** ** The curves of one stratum *)

Lemma cumulative_hazard_cons (x : R) (rates : list R) (t : nat) :
  cumulative_hazard (x :: rates) (S t) = (x + cumulative_hazard rates t)%R.
Proof.
  reflexivity.
Qed.

Lemma cumulative_hazard_first (x : R) (rates : list R) :
  cumulative_hazard (x :: rates) 0 = x.
Proof.
  unfold cumulative_hazard. cbn [firstn fold_right]. ring.
Qed.

Lemma option_map_ext {A B} (f g : A -> B) (o : option A) :
  (forall a, f a = g a) -> option_map f o = option_map g o.
Proof.
  intro H. destruct o; cbn; [now rewrite H | reflexivity].
Qed.

Lemma assign_H_t_nth (s : string) (l : DataFrame) :
  forall (rates : list R) (acc : string -> R) (t : nat),
    Forall (fun r => Sex r = s) l ->
    map Rate l = map Some rates ->
    nth_error (assign_H_t acc l) t
      = option_map
          (fun r => set_H_t r (Some (acc s + cumulative_hazard rates t)%R))
          (nth_error l t).
Proof.
  induction l as [|r rest IH]; intros rates acc t All E.
  - destruct t; reflexivity.
  - destruct rates as [|x rates]; [discriminate|].
    cbn [map] in E. injection E as Er E.
    inversion All as [|? ? Hs All']; subst.
    cbn [assign_H_t]. rewrite Er. destruct t as [|t]; cbn [nth_error option_map].
    + rewrite cumulative_hazard_first. reflexivity.
    + rewrite (IH rates _ t All' E). rewrite update_same.
      apply option_map_ext. intro r'. rewrite cumulative_hazard_cons.
      do 2 f_equal. ring.
Qed.

Lemma assign_p_t_nth (s : string) (l : DataFrame) :
  forall (f : nat -> R) (prev : string -> option cell) (t : nat),
    Forall (fun r => Sex r = s) l ->
    (forall t r, nth_error l t = Some r -> F_t r = Some (f t)) ->
    nth_error (assign_p_t prev l) t
      = option_map
          (fun r => set_p_t r
             (Some match t with
                   | 0 => match prev s with
                          | Some (Some f0) => (f 0%nat - f0)%R
                          | _ => f 0
                          end
                   | S t' => (f t - f t')%R
                   end))
          (nth_error l t).
Proof.
  induction l as [|r rest IH]; intros f prev t All HF.
  - destruct t; reflexivity.
  - inversion All as [|? ? Hs All']; subst.
    cbn [assign_p_t]. pose proof (HF 0 r eq_refl) as F0.
    destruct t as [|t]; cbn [nth_error option_map].
    + rewrite F0. destruct (prev (Sex r)) as [[f0|]|]; reflexivity.
    + rewrite (IH (fun t => f (S t)) _ t All').
      * rewrite update_same, F0. apply option_map_ext. intro r'.
        destruct t; reflexivity.
      * intros t' r' E. apply (HF (S t') r' E).
Qed.

(** Row [t] of a stratum of [df_mort_data_1], for a stratum without missing
    rates. *)
Lemma single_stratum_curve (s : string) (l : DataFrame) (rates : list R) :
  Forall (fun r => Sex r = s) l ->
  map Rate l = map Some rates ->
  forall t,
    nth_error
      (assign_p_t (fun _ => None)
         (assign_F_t (assign_S_t (assign_H_t (fun _ => 0%R) l)))) t
      = option_map (curve_row rates t) (nth_error l t).
Proof.
  intros All E t.
  set (lF := assign_F_t (assign_S_t (assign_H_t (fun _ => 0%R) l))).
  assert (Fact : forall t,
    nth_error lF t
      = option_map
          (fun r => mkRow (Sex r) (Year r) (Age r) (Rate r)
                      (Some (cumulative_hazard rates t)) (Some (survival rates t))
                      (Some (failure rates t)) (p_t r))
          (nth_error l t)).
  { intro t'. unfold lF, assign_F_t, assign_S_t. rewrite !nth_error_map.
    rewrite (@assign_H_t_nth s l rates (fun _ => 0%R) t' All E).
    destruct (nth_error l t') as [r|]; [|reflexivity].
    cbn. unfold failure, survival. rewrite Rplus_0_l. reflexivity. }
  assert (AllF : Forall (fun r => Sex r = s) lF).
  { rewrite Forall_forall. intros r Hin. destruct (In_nth_error _ _ Hin) as [t' Ht'].
    rewrite Fact in Ht'. destruct (nth_error l t') as [r0|] eqn:E0; [|discriminate].
    cbn in Ht'. injection Ht' as <-. cbn. rewrite Forall_forall in All.
    apply All. eapply nth_error_In; eauto. }
  rewrite (@assign_p_t_nth s lF (failure rates) (fun _ => None) t AllF).
  - rewrite Fact. destruct (nth_error l t) as [r|]; [|reflexivity].
    cbn. unfold curve_row, set_p_t. cbn. destruct t; reflexivity.
  - intros t' r Ht'. rewrite Fact in Ht'.
    destruct (nth_error l t') as [r0|]; [|discriminate].
    cbn in Ht'. injection Ht' as <-. reflexivity.
Qed.

Lemma stratum_curve (s : string) (raw : DataFrame) (rates : list R) :
  map Rate (stratum s (sorted_2015 raw)) = map Some rates ->
  forall t,
    nth_error (stratum s (df_mort_data_1 raw)) t
      = option_map (curve_row rates t) (nth_error (stratum s (sorted_2015 raw)) t).
Proof.
  intros E t. rewrite stratum_df_mort_data_1.
  apply single_stratum_curve with (s := s); [apply stratum_all | exact E].
Qed.

Lemma stratum_curve_length (s : string) (raw : DataFrame) (rates : list R) :
  map Rate (stratum s (sorted_2015 raw)) = map Some rates ->
  length (stratum s (df_mort_data_1 raw)) = length rates.
Proof.
  intro E. rewrite stratum_df_mort_data_1.
  assert (L : forall prev l, length (assign_p_t prev l) = length l).
  { intros prev l. revert prev. induction l; intro prev; cbn; auto. }
  assert (L' : forall acc l, length (assign_H_t acc l) = length l).
  { intros acc l. revert acc. induction l as [|r l IH]; intro acc; cbn; auto.
    destruct (Rate r); cbn; auto. }
  unfold assign_F_t, assign_S_t. rewrite L, !length_map, L'.
  apply (f_equal (@length _)) in E. now rewrite !length_map in E.
Qed.

(** ** The appended row *)

Lemma groupby_tail_1_single (s : string) (l : DataFrame) :
  Forall (fun r => Sex r = s) l -> l <> [] ->
  exists r, nth_error l (length l - 1) = Some r /\ groupby_tail_1 l = [r].
Proof.
  induction 1 as [|r rest Hr All IH]; [congruence|]. intros _.
  destruct rest as [|r' rest'].
  - exists r. split; reflexivity.
  - destruct IH as (last & E & T); [discriminate|].
    exists last. split.
    + cbn [length] in *. replace (S (S (length rest')) - 1) with (S (length rest')) by lia.
      replace (S (length rest') - 1) with (length rest') in E by lia. exact E.
    + inversion All as [|? ? Hr' _]; subst.
      apply String.eqb_eq in Hr'.
      change (groupby_tail_1 (r :: r' :: rest'))
        with (if String.eqb (Sex r') (Sex r)
                 || existsb (fun x => String.eqb (Sex x) (Sex r)) rest'
              then groupby_tail_1 (r' :: rest')
              else r :: groupby_tail_1 (r' :: rest')).
      rewrite Hr'. exact T.
Qed.

(** The stratum has one appended row, built from its last row. *)
Lemma stratum_df_mort_append_0 (s : string) (raw : DataFrame) (rates : list R) :
  rates <> [] ->
  map Rate (stratum s (sorted_2015 raw)) = map Some rates ->
  exists r,
    nth_error (stratum s (sorted_2015 raw)) (length rates - 1) = Some r /\
    stratum s (df_mort_append_0 raw)
      = [terminal_row (curve_row rates (length rates - 1) r)].
Proof.
  intros NE E. unfold df_mort_append_0.
  rewrite stratum_terminal, stratum_groupby_tail_1.
  pose proof (@stratum_curve_length s raw rates E) as L.
  destruct (@groupby_tail_1_single s (stratum s (df_mort_data_1 raw)))
    as (last & El & T).
  { apply stratum_all. }
  { intro N. rewrite N in L. destruct rates; [congruence | discriminate]. }
  rewrite L, (@stratum_curve s raw rates E) in El.
  destruct (nth_error (stratum s (sorted_2015 raw)) (length rates - 1)) as [r|];
    [|discriminate].
  cbn in El. injection El as <-. exists r. rewrite T. auto.
Qed.

(** ** Sorting keeps the rows *)

Lemma insert_perm (r : row) (df : DataFrame) : Permutation (insert r df) (r :: df).
Proof.
  induction df as [|x rest IH]; cbn [insert]; [reflexivity|].
  destruct (key_leb r x); [reflexivity|].
  rewrite IH. apply perm_swap.
Qed.

Lemma sort_values_perm (df : DataFrame) : Permutation (sort_values df) df.
Proof.
  induction df as [|r rest IH]; cbn [sort_values]; [reflexivity|].
  rewrite insert_perm. now constructor.
Qed.

Lemma stratum_perm (s : string) (l l' : DataFrame) :
  Permutation l l' -> Permutation (stratum s l) (stratum s l').
Proof.
  unfold stratum. induction 1 as [|x l l' _ IH|x y l|l l' l'' _ IH1 _ IH2]; cbn [filter].
  - reflexivity.
  - destruct (String.eqb (Sex x) s); [now constructor | exact IH].
  - destruct (String.eqb (Sex x) s), (String.eqb (Sex y) s);
      try reflexivity. apply perm_swap.
  - now transitivity (filter (fun r => String.eqb (Sex r) s) l').
Qed.

Lemma stratum_df_mort_data_2 (s : string) (raw : DataFrame) :
  Permutation (stratum s (df_mort_data_2 raw))
              (stratum s (df_mort_data_1 raw) ++ stratum s (df_mort_append_0 raw)).
Proof.
  unfold df_mort_data_2.
  rewrite (stratum_perm s (sort_values_perm _)).
  unfold stratum. rewrite filter_app. reflexivity.
Qed.

(** ** Sums of a column *)

Lemma sum_skipna_app (a b : list cell) :
  sum_skipna (a ++ b) = (sum_skipna a + sum_skipna b)%R.
Proof.
  induction a as [|[v|] a IH].
  - change (sum_skipna b = (0 + sum_skipna b)%R). lra.
  - change (v + sum_skipna (a ++ b) = v + sum_skipna a + sum_skipna b)%R.
    rewrite IH. lra.
  - exact IH.
Qed.

Lemma sum_skipna_perm (a b : list cell) :
  Permutation a b -> sum_skipna a = sum_skipna b.
Proof.
  induction 1 as [|x l l' _ IH|x y l|l l' l'' _ IH1 _ IH2].
  - reflexivity.
  - change (sum_skipna (x :: l)) with (sum_skipna ([x] ++ l)).
    change (sum_skipna (x :: l')) with (sum_skipna ([x] ++ l')).
    rewrite !sum_skipna_app, IH. reflexivity.
  - change (sum_skipna (y :: x :: l)) with (sum_skipna ([y] ++ [x] ++ l)).
    change (sum_skipna (x :: y :: l)) with (sum_skipna ([x] ++ [y] ++ l)).
    rewrite !sum_skipna_app. ring.
  - congruence.
Qed.



(** ** Bounds on the exponential *)


Lemma exp_pow (n : nat) (x : R) : exp (INR n * x) = (exp x ^ n)%R.
Proof.
  induction n as [|n IH].
  - cbn [INR pow]. rewrite Rmult_0_l. apply exp_0.
  - rewrite S_INR, Rmult_plus_distr_r, Rmult_1_l, exp_plus, IH.
    cbn [pow]. ring.
Qed.

Lemma ratio_pow_lower (a b c d : Z) (n : nat) :
  (0 < b)%Z -> (0 < d)%Z -> (c * b ^ Z.of_nat n < d * a ^ Z.of_nat n)%Z ->
  (IZR c / IZR d < (IZR a / IZR b) ^ n)%R.
Proof.
  intros Hb Hd H.
  assert (Rb : (0 < IZR b)%R) by now apply IZR_lt.
  assert (Rd : (0 < IZR d)%R) by now apply IZR_lt.
  unfold Rdiv. rewrite Rpow_mult_distr, pow_inv, !pow_IZR.
  assert (Rbn : (0 < IZR (b ^ Z.of_nat n))%R).
  { apply IZR_lt. apply Z.pow_pos_nonneg; lia. }
  apply IZR_lt in H. rewrite !mult_IZR in H.
  apply Rmult_lt_reg_r with (IZR d); [exact Rd|].
  apply Rmult_lt_reg_r with (IZR (b ^ Z.of_nat n)); [exact Rbn|].
  field_simplify; [|lra|lra]. lra.
Qed.

Lemma ratio_pow_upper (a b c d : Z) (n : nat) :
  (0 < b)%Z -> (0 < d)%Z -> (d * a ^ Z.of_nat n < c * b ^ Z.of_nat n)%Z ->
  ((IZR a / IZR b) ^ n < IZR c / IZR d)%R.
Proof.
  intros Hb Hd H.
  assert (Rb : (0 < IZR b)%R) by now apply IZR_lt.
  assert (Rd : (0 < IZR d)%R) by now apply IZR_lt.
  unfold Rdiv. rewrite Rpow_mult_distr, pow_inv, !pow_IZR.
  assert (Rbn : (0 < IZR (b ^ Z.of_nat n))%R).
  { apply IZR_lt. apply Z.pow_pos_nonneg; lia. }
  apply IZR_lt in H. rewrite !mult_IZR in H.
  apply Rmult_lt_reg_r with (IZR d); [exact Rd|].
  apply Rmult_lt_reg_r with (IZR (b ^ Z.of_nat n)); [exact Rbn|].
  field_simplify; [|lra|lra]. lra.
Qed.

(** [exp(-0.06)] lies between the 256th power of [1 - 0.06/256] and the
    inverse of the 64th power of [1 + 0.06/64]. *)
Lemma exp_neg_6_100_lower : (94175 / 100000 < exp (- (6 / 100)))%R.
Proof.
  replace (- (6 / 100))%R with (INR 256 * (- (6 / 25600)))%R.
  2:{ rewrite INR_IZR_INZ. cbn [Z.of_nat Pos.of_succ_nat Pos.succ]. field. }
  rewrite exp_pow.
  apply Rlt_le_trans with ((IZR 12797 / IZR 12800) ^ 256)%R.
  - apply ratio_pow_lower; [lia | lia |]. apply Z.ltb_lt. vm_compute. reflexivity.
  - apply pow_incr. split; [lra|].
    pose proof (exp_ineq1_le (- (6 / 25600))). lra.
Qed.

Lemma exp_neg_6_100_upper : (exp (- (6 / 100)) < 9418 / 10000)%R.
Proof.
  rewrite exp_Ropp.
  replace (6 / 100)%R with (INR 64 * (6 / 6400))%R.
  2:{ rewrite INR_IZR_INZ. cbn [Z.of_nat Pos.of_succ_nat Pos.succ]. field. }
  rewrite exp_pow.
  assert (L : ((IZR 3203 / IZR 3200) ^ 64 <= exp (6 / 6400) ^ 64)%R).
  { apply pow_incr. split; [lra|].
    pose proof (exp_ineq1_le (6 / 6400)). lra. }
  assert (P : (0 < (IZR 3203 / IZR 3200) ^ 64)%R) by (apply pow_lt; lra).
  apply Rle_lt_trans with (/ (IZR 3203 / IZR 3200) ^ 64)%R.
  - apply Rinv_le_contravar; assumption.
  - rewrite <- pow_inv.
    replace (/ (IZR 3203 / IZR 3200))%R with (IZR 3200 / IZR 3203)%R by (field; lra).
    apply ratio_pow_upper; [lia | lia |]. apply Z.ltb_lt. vm_compute. reflexivity.
Qed.

(** ** Signs of the curves *)





(** * Properties of [sort_values] *)

Lemma string_compare_eq (a b : string) : String.compare a b = Eq <-> a = b.
Proof.
  exact (String_as_OT.cmp_eq a b).
Qed.

Lemma string_compare_lt_trans (a b c : string) :
  String.compare a b = Lt -> String.compare b c = Lt -> String.compare a c = Lt.
Proof.
  intros H1 H2. apply String_as_OT.cmp_lt.
  apply String_as_OT.lt_trans with b; now apply String_as_OT.cmp_lt.
Qed.

Lemma string_compare_refl (a : string) : String.compare a a = Eq.
Proof.
  now apply string_compare_eq.
Qed.

Lemma key_leb_trans (a b c : row) :
  key_leb a b = true -> key_leb b c = true -> key_leb a c = true.
Proof.
  unfold key_leb, key_compare.
  destruct (String.compare (Sex a) (Sex b)) eqn:S1; try discriminate;
    destruct (String.compare (Sex b) (Sex c)) eqn:S2; try discriminate.
  - apply string_compare_eq in S1. apply string_compare_eq in S2.
    rewrite S1, S2, string_compare_refl.
    destruct (Z.compare_spec (Year a) (Year b)); try discriminate;
      destruct (Z.compare_spec (Year b) (Year c)); try discriminate;
      destruct (Z.compare_spec (Year a) (Year c)); try lia; try reflexivity.
    destruct (Z.compare_spec (Age a) (Age b)); try discriminate;
      destruct (Z.compare_spec (Age b) (Age c)); try discriminate;
      destruct (Z.compare_spec (Age a) (Age c)); try lia; reflexivity.
  - apply string_compare_eq in S1. rewrite S1, S2. reflexivity.
  - apply string_compare_eq in S2. rewrite <- S2, S1. reflexivity.
  - rewrite (string_compare_lt_trans _ _ _ S1 S2). reflexivity.
Qed.

Lemma key_leb_total (a b : row) : key_leb a b = false -> key_leb b a = true.
Proof.
  unfold key_leb, key_compare.
  rewrite (String.compare_antisym (Sex b) (Sex a)).
  rewrite (Z.compare_antisym (Year a) (Year b)).
  rewrite (Z.compare_antisym (Age a) (Age b)).
  destruct (String.compare (Sex a) (Sex b)); cbn; try discriminate; try reflexivity.
  destruct (Z.compare (Year a) (Year b)); cbn; try discriminate; try reflexivity.
  destruct (Z.compare (Age a) (Age b)); cbn; try discriminate; reflexivity.
Qed.

Lemma insert_sorted (r : row) (df : DataFrame) :
  StronglySorted (fun a b => key_leb a b = true) df ->
  StronglySorted (fun a b => key_leb a b = true) (insert r df).
Proof.
  induction 1 as [|x rest Hs IH Hx]; cbn [insert].
  - repeat constructor.
  - destruct (key_leb r x) eqn:E.
    + constructor; [now constructor|]. constructor; [exact E|].
      eapply Forall_impl; [|exact Hx]. intros y Hy. eapply key_leb_trans; eauto.
    + constructor; [exact IH|].
      eapply Permutation_Forall; [symmetry; apply insert_perm|].
      constructor; [now apply key_leb_total | exact Hx].
Qed.

Lemma sort_values_sorted (df : DataFrame) :
  StronglySorted (fun a b => key_leb a b = true) (sort_values df).
Proof.
  induction df as [|r rest IH]; cbn [sort_values]; [constructor|].
  now apply insert_sorted.
Qed.

(** Restricting a sorted frame commutes with inserting a row. *)
Lemma filter_insert (keep : row -> bool) (r : row) (df : DataFrame) :
  StronglySorted (fun a b => key_leb a b = true) df ->
  filter keep (insert r df)
    = if keep r then insert r (filter keep df) else filter keep df.
Proof.
  induction 1 as [|x rest Hs IH Hx]; cbn [insert filter].
  - destruct (keep r); reflexivity.
  - destruct (key_leb r x) eqn:E; cbn [filter].
    + destruct (keep r); [|reflexivity].
      destruct (keep x); cbn [insert]; [now rewrite E|].
      assert (A : Forall (fun y => key_leb r y = true) (filter keep rest)).
      { rewrite Forall_forall in *. intros y Hy. apply filter_In in Hy.
        eapply key_leb_trans; [exact E | apply Hx; tauto]. }
      destruct (filter keep rest) as [|y rest']; [reflexivity|].
      cbn [insert]. inversion A as [|? ? Hy _]; subst. now rewrite Hy.
    + rewrite IH. destruct (keep x), (keep r); cbn [insert]; try reflexivity.
      now rewrite E.
Qed.

Lemma filter_sort_values (keep : row -> bool) (df : DataFrame) :
  filter keep (sort_values df) = sort_values (filter keep df).
Proof.
  induction df as [|r rest IH]; cbn [sort_values filter]; [reflexivity|].
  rewrite filter_insert by apply sort_values_sorted.
  rewrite IH. destruct (keep r); reflexivity.
Qed.

(** A frame already in order is left as it is. *)
Lemma sort_values_sorted_id (df : DataFrame) :
  Sorted (fun a b => key_leb a b = true) df -> sort_values df = df.
Proof.
  induction 1 as [|x rest Hs IH Hx]; cbn [sort_values]; [reflexivity|].
  rewrite IH. destruct Hx as [|y rest' Hy]; cbn [insert]; [reflexivity|].
  now rewrite Hy.
Qed.

Lemma sorted_by_age (s : string) (y : Z) (df : DataFrame) :
  Forall (fun r => Sex r = s /\ Year r = y) df ->
  Sorted Z.le (map Age df) ->
  Sorted (fun a b => key_leb a b = true) df.
Proof.
  induction 1 as [|r rest [Hs Hy] All IH]; cbn [map]; intro S; [constructor|].
  inversion S as [|? ? S' Hd]; subst. constructor; [now apply IH|].
  destruct rest as [|r' rest']; [constructor|].
  inversion All as [|? ? [Hs' Hy'] _]; subst.
  cbn [map] in Hd. inversion Hd as [|? ? Hle]; subst.
  constructor. unfold key_leb, key_compare.
  rewrite Hs', (proj2 (string_compare_eq (Sex r) (Sex r)) eq_refl).
  rewrite Hy', Z.compare_refl.
  destruct (Z.compare_spec (Age r) (Age r')); try reflexivity. lia.
Qed.

Lemma sorted_2015_year (raw : DataFrame) :
  Forall (fun r => Year r = 2015%Z) (sorted_2015 raw).
Proof.
  unfold sorted_2015. eapply Permutation_Forall; [symmetry; apply sort_values_perm|].
  unfold query_Year_2015. rewrite Forall_forall. intros r Hin.
  apply filter_In in Hin. destruct Hin as [_ E]. now apply Z.eqb_eq.
Qed.

Lemma ages_then_101_sorted (a n : nat) :
  a + n <= 101 ->
  Sorted Z.le (map Z.of_nat (seq a n) ++ [101%Z]).
Proof.
  revert a. induction n as [|n IH]; intros a H; cbn [seq map app].
  - repeat constructor.
  - constructor; [apply IH; lia|].
    destruct n; cbn [seq map app]; constructor; lia.
Qed.

(** ** The order of a stratum in [df_mort_data_2] *)

Lemma stratum_curve_column {X} (f : row -> X) (s : string) (raw : DataFrame)
    (rates : list R) :
  (forall t r, f (curve_row rates t r) = f r) ->
  map Rate (stratum s (sorted_2015 raw)) = map Some rates ->
  map f (stratum s (df_mort_data_1 raw)) = map f (stratum s (sorted_2015 raw)).
Proof.
  intros Hf ER. apply nth_error_ext. intro t.
  rewrite !nth_error_map, (@stratum_curve s raw rates ER).
  destruct (nth_error (stratum s (sorted_2015 raw)) t); cbn; [now rewrite Hf | reflexivity].
Qed.

(** When the last observed age is at most 100, the appended row sorts after
    the rows of its stratum. *)
Lemma stratum_df_mort_data_2_ordered (s : string) (raw : DataFrame) (rates : list R) :
  rates <> [] ->
  map Age (stratum s (sorted_2015 raw)) = map Z.of_nat (seq 0 (length rates)) ->
  map Rate (stratum s (sorted_2015 raw)) = map Some rates ->
  length rates - 1 <= 100 ->
  stratum s (df_mort_data_2 raw)
    = stratum s (df_mort_data_1 raw) ++ stratum s (df_mort_append_0 raw).
Proof.
  intros NE EA ER HT.
  unfold df_mort_data_2, stratum at 1. rewrite filter_sort_values, filter_app.
  fold (stratum s (df_mort_data_1 raw)). fold (stratum s (df_mort_append_0 raw)).
  apply sort_values_sorted_id.
  destruct (@stratum_df_mort_append_0 s raw rates NE ER) as (r & Er & Eapp).
  assert (Hr : Sex r = s /\ Year r = 2015%Z).
  { apply nth_error_In in Er. split.
    - pose proof (stratum_all s (sorted_2015 raw)) as A.
      rewrite Forall_forall in A. now apply A.
    - pose proof (sorted_2015_year raw) as Y. rewrite Forall_forall in Y.
      apply Y. unfold stratum in Er. apply filter_In in Er. tauto. }
  apply sorted_by_age with (s := s) (y := 2015%Z).
  - apply Forall_app. split.
    + rewrite Forall_forall. intros x Hx. split.
      * pose proof (stratum_all s (df_mort_data_1 raw)) as A.
        rewrite Forall_forall in A. now apply A.
      * apply (in_map Year) in Hx.
        rewrite (@stratum_curve_column Z Year s raw rates (fun _ _ => eq_refl) ER) in Hx.
        apply in_map_iff in Hx. destruct Hx as (x0 & <- & Hx0).
        pose proof (sorted_2015_year raw) as Y. rewrite Forall_forall in Y.
        apply Y. unfold stratum in Hx0. apply filter_In in Hx0. tauto.
    + rewrite Eapp. constructor; [|constructor]. exact Hr.
  - rewrite map_app, Eapp.
    rewrite (@stratum_curve_column Z Age s raw rates (fun _ _ => eq_refl) ER), EA.
    apply ages_then_101_sorted. destruct rates; [congruence|]. cbn [length] in *. lia.
Qed.

(** ** C2: the curves and the appended category *)

Lemma table_A_rates :
  map Rate (stratum "A" (sorted_2015 (read_csv table_A)))
    = map Some [(1 / 100)%R; (2 / 100)%R; (3 / 100)%R].
Proof.
  reflexivity.
Qed.

Lemma table_A_ages :
  map Age (stratum "A" (sorted_2015 (read_csv table_A)))
    = map Z.of_nat (seq 0 3).
Proof.
  reflexivity.
Qed.

(** C2, as the code has it.  Take a stratum whose sorted records have the
    ages 0, 1, ..., T and the rates [rates].  Row [t] of the stratum in
    [df_mort_data_1] has age [t], [H_t] the sum of the rates up to [t],
    [S_t = exp(-H_t)], [F_t = 1 - S_t] and [p_t = F_t] for [t = 0],
    [F_t - F_(t-1)] after.  [df_mort_append_0] holds exactly one row of the
    stratum; its [p_t] is [1 - F_T], its hazard columns are NaN, and its age
    is the constant 101 of line 46, which is [T + 1] only for [T = 100].
    [df_mort_data_2] holds these rows and no others, the appended one last
    when [T <= 100].  For the increments
    0.01, 0.02, 0.03 this gives [H = 0.01, 0.03, 0.06] and a terminal mass
    within 0.00005 of 0.9418. *)
Theorem hazard_to_pmf_curves_and_terminal_row :
  (forall (raw : DataFrame) (s : string) (rates : list R),
     rates <> [] ->
     map Age (stratum s (sorted_2015 raw)) = map Z.of_nat (seq 0 (length rates)) ->
     map Rate (stratum s (sorted_2015 raw)) = map Some rates ->
     (forall t, t < length rates ->
        exists r,
          nth_error (stratum s (df_mort_data_1 raw)) t = Some r /\
          Age r = Z.of_nat t /\
          H_t r = Some (cumulative_hazard rates t) /\
          S_t r = Some (exp (- cumulative_hazard rates t)) /\
          F_t r = Some (1 - exp (- cumulative_hazard rates t))%R /\
          p_t r = Some match t with
                       | 0 => failure rates 0
                       | S t' => (failure rates t - failure rates t')%R
                       end) /\
     length (stratum s (df_mort_data_1 raw)) = length rates /\
     (exists last,
        stratum s (df_mort_append_0 raw) = [last] /\
        Age last = 101%Z /\
        ((Age last = Z.of_nat (length rates - 1) + 1)%Z <-> length rates - 1 = 100) /\
        p_t last = Some (1 - failure rates (length rates - 1))%R /\
        H_t last = None /\
        Rate last = None) /\
     Permutation (stratum s (df_mort_data_2 raw))
                 (stratum s (df_mort_data_1 raw) ++ stratum s (df_mort_append_0 raw)) /\
     (length rates - 1 <= 100 ->
      stratum s (df_mort_data_2 raw)
        = stratum s (df_mort_data_1 raw) ++ stratum s (df_mort_append_0 raw)))
  /\
  (map H_t (stratum "A" (df_mort_data_1 (read_csv table_A)))
     = [Some (1 / 100)%R; Some (3 / 100)%R; Some (6 / 100)%R] /\
   exists m,
     map p_t (stratum "A" (df_mort_append_0 (read_csv table_A))) = [Some m] /\
     (Rabs (m - 9418 / 10000) < 5 / 100000)%R).
Proof.
  assert (General : forall (raw : DataFrame) (s : string) (rates : list R),
     rates <> [] ->
     map Age (stratum s (sorted_2015 raw)) = map Z.of_nat (seq 0 (length rates)) ->
     map Rate (stratum s (sorted_2015 raw)) = map Some rates ->
     (forall t, t < length rates ->
        exists r,
          nth_error (stratum s (df_mort_data_1 raw)) t = Some r /\
          Age r = Z.of_nat t /\
          H_t r = Some (cumulative_hazard rates t) /\
          S_t r = Some (exp (- cumulative_hazard rates t)) /\
          F_t r = Some (1 - exp (- cumulative_hazard rates t))%R /\
          p_t r = Some match t with
                       | 0 => failure rates 0
                       | S t' => (failure rates t - failure rates t')%R
                       end) /\
     length (stratum s (df_mort_data_1 raw)) = length rates /\
     (exists last,
        stratum s (df_mort_append_0 raw) = [last] /\
        Age last = 101%Z /\
        ((Age last = Z.of_nat (length rates - 1) + 1)%Z <-> length rates - 1 = 100) /\
        p_t last = Some (1 - failure rates (length rates - 1))%R /\
        H_t last = None /\
        Rate last = None) /\
     Permutation (stratum s (df_mort_data_2 raw))
                 (stratum s (df_mort_data_1 raw) ++ stratum s (df_mort_append_0 raw)) /\
     (length rates - 1 <= 100 ->
      stratum s (df_mort_data_2 raw)
        = stratum s (df_mort_data_1 raw) ++ stratum s (df_mort_append_0 raw))).
  { intros raw s rates NE EA ER. split; [|split; [|split; [|split]]].
    - intros t Hlt. rewrite (@stratum_curve s raw rates ER).
      assert (L : length (stratum s (sorted_2015 raw)) = length rates).
      { apply (f_equal (@length _)) in ER. now rewrite !length_map in ER. }
      destruct (nth_error (stratum s (sorted_2015 raw)) t) as [r|] eqn:Er;
        [|apply nth_error_None in Er; lia].
      exists (curve_row rates t r). split; [reflexivity|].
      split; [|repeat split].
      apply (f_equal (fun l => nth_error l t)) in EA.
      rewrite !nth_error_map, Er, nth_error_seq in EA.
      destruct (Nat.ltb_spec t (length rates)); [|lia].
      cbn in EA. injection EA as EA. exact EA.
    - apply (@stratum_curve_length s raw rates ER).
    - destruct (@stratum_df_mort_append_0 s raw rates NE ER) as (r & Er & Eapp).
      exists (terminal_row (curve_row rates (length rates - 1) r)).
      split; [exact Eapp|]. split; [reflexivity|]. split; [|repeat split].
      cbn [terminal_row curve_row set_Age set_p_t set_F_t set_S_t set_H_t set_Rate Age].
      lia.
    - apply stratum_df_mort_data_2.
    - now apply stratum_df_mort_data_2_ordered. }
  split; [exact General|]. split.
  - cbn.
    replace (0 + 1 / 100 + 2 / 100 + 3 / 100)%R with (6 / 100)%R by lra.
    replace (0 + 1 / 100 + 2 / 100)%R with (3 / 100)%R by lra.
    replace (0 + 1 / 100)%R with (1 / 100)%R by lra. reflexivity.
  - eexists. split; [cbn; reflexivity|].
    replace (0 + 1 / 100 + 2 / 100 + 3 / 100)%R with (6 / 100)%R by lra.
    pose proof exp_neg_6_100_lower. pose proof exp_neg_6_100_upper.
    apply Rabs_def1; lra.
Qed.

Lemma hazard_to_pmf_curves_and_terminal_row_witness :
  exists last,
    stratum "A" (df_mort_append_0 (read_csv table_A)) = [last] /\
    Age last = 101%Z /\
    p_t last = Some (1 - failure [(1 / 100)%R; (2 / 100)%R; (3 / 100)%R] 2)%R.
Proof.
  destruct hazard_to_pmf_curves_and_terminal_row as [General _].
  destruct (General (read_csv table_A) "A"%string
              [(1 / 100)%R; (2 / 100)%R; (3 / 100)%R])
    as (_ & _ & (last & E & A & _ & P & _) & _ & _).
  - discriminate.
  - exact table_A_ages.
  - exact table_A_rates.
  - exists last. split; [exact E|]. split; [exact A | exact P].
Defined.

(** C2 as stated fails.  In the stratum "A" the observed categories are 0, 1
    and 2, and the appended category is 101, not [2 + 1]. *)
Lemma terminal_category_is_101_not_last_plus_1 :
  map Age (stratum "A" (sorted_2015 (read_csv table_A))) = [0; 1; 2]%Z /\
  map Age (stratum "A" (df_mort_append_0 (read_csv table_A))) = [101%Z] /\
  (101 <> 2 + 1)%Z.
Proof.
  split; [reflexivity|]. split; [reflexivity | discriminate].
Qed.

(** ** C3: the completed PMF is a distribution *)



(** ** C8: no check of the sums *)

(** C8, as the code has it.  The sums of lines 40 and 60 are only displayed;
    nothing is compared with 1 and nothing is raised.  Whatever the sums
    are, [df_mort_data_2] holds the rows of [df_mort_data_1] and of
    [df_mort_append_0] as they were computed, so the [p_t] of a stratum are
    never rescaled and their sum is the sum of the computed values. *)
Theorem build_keeps_computed_masses :
  forall (raw : DataFrame),
    Permutation (df_mort_data_2 raw)
                (df_mort_data_1 raw ++ df_mort_append_0 raw) /\
    forall s,
      p_t_sum s (df_mort_data_2 raw)
        = (p_t_sum s (df_mort_data_1 raw) + p_t_sum s (df_mort_append_0 raw))%R.
Proof.
  intro raw. split; [apply sort_values_perm|].
  intro s. unfold p_t_sum.
  rewrite (sum_skipna_perm (Permutation_map p_t (stratum_df_mort_data_2 s raw))).
  now rewrite map_app, sum_skipna_app.
Qed.

(** C8 as stated fails.  With the rate of age 1 missing, the [p_t] of the
    stratum "A" in [df_mort_data_2] sum to [1 + (1 - exp(-1/2))], more than
    1.3; the frame is built all the same, with its four rows. *)
Lemma sum_off_and_frame_built :
  map Age (df_mort_data_2 (read_csv table_A_missing)) = [0; 1; 2; 101]%Z /\
  p_t_sum "A" (df_mort_data_2 (read_csv table_A_missing))
    = (1 + (1 - exp (- (1 / 2))))%R /\
  (Rabs (p_t_sum "A" (df_mort_data_2 (read_csv table_A_missing)) - 1) > 3 / 10)%R.
Proof.
  assert (E : p_t_sum "A" (df_mort_data_2 (read_csv table_A_missing))
              = (1 + (1 - exp (- (1 / 2))))%R).
  { unfold p_t_sum. cbn.
    replace (0 + 1 / 2)%R with (1 / 2)%R by lra. lra. }
  split; [reflexivity|]. split; [exact E|].
  rewrite E.
  assert (B : (exp (- (1 / 2)) <= 2 / 3)%R).
  { rewrite exp_Ropp. pose proof (exp_ineq1_le (1 / 2)).
    replace (2 / 3)%R with (/ (3 / 2))%R by lra.
    apply Rinv_le_contravar; lra. }
  rewrite Rabs_right; lra.
Qed.

(** * Further properties of [nps_nhpp] *)

(** ** Empty inputs, the process state, the labels *)

Lemma normalized_empty_rows (a : ndarray2) :
  Forall (fun row => row = []) a -> Forall (fun row => row = []) (normalized a).
Proof.
  intro F. unfold normalized, div_keepdims. destruct (negb _); [|exact F].
  rewrite Forall_map. eapply Forall_impl; [|exact F]. intros row ->. reflexivity.
Qed.

(** X1.  A matrix without entries, that is without rows or with rows of no
    column, makes the call raise [ValueError]: [np.vstack] has nothing to
    stack, or [np.argmax] meets an empty row. *)
Theorem no_entries_raises_ValueError :
  forall (a_probs : ndarray2) (correction : string)
         (a_categories : option ndarray1) (w : world),
    Forall (fun row => row = []) a_probs ->
    fst (nps_nhpp a_probs correction a_categories w) = inl ValueError.
Proof.
  intros a correction cats w F. destruct a as [|row a'].
  - now rewrite nps_nhpp_no_rows.
  - rewrite nps_nhpp_run by discriminate. cbn [fst].
    pose proof (normalized_empty_rows F) as N.
    pose proof (normalized_length (row :: a')) as L.
    destruct (normalized (row :: a')) as [|row0 n']; [discriminate|].
    inversion N as [|? ? E _]; subst.
    unfold draws_of, shape0. cbn [length seq map cumsum_axis1 cumsum ge_col argmax_axis1 argmax].
    reflexivity.
Qed.

Lemma no_entries_raises_ValueError_witness :
  fst (nps_nhpp [[]; []] "uniform" None (world_of [(1 # 2)%Q; (1 # 4)%Q]))
    = inl ValueError.
Proof.
  apply no_entries_raises_ValueError. repeat constructor.
Defined.

(** X2.  Whatever the arguments and whether it returns or raises, a call
    takes exactly [n_rows] draws from the generator, leaves the rest of the
    generator as it was, and writes to standard output only the warning of
    an unrecognized mode. *)
Theorem call_takes_one_draw_per_row :
  forall (a_probs : ndarray2) (correction : string)
         (a_categories : option ndarray1) (w : world),
    let w' := snd (nps_nhpp a_probs correction a_categories w) in
    consumed (random w') = consumed (random w) + shape0 a_probs /\
    stream (random w') = stream (random w) /\
    stdout w' = if mem correction valid_correction
                then stdout w else stdout w ++ [warning].
Proof.
  intros a correction cats w. destruct a as [|row a'].
  - rewrite nps_nhpp_no_rows. cbn. auto.
  - rewrite nps_nhpp_run by discriminate. cbn. auto.
Qed.

Lemma take_out_of_range (v : ndarray1) (positions : list nat) :
  Exists (fun p => length v <= p) positions -> take v positions = inl IndexError.
Proof.
  induction 1 as [p ps Hp|p ps _ IH]; cbn [take].
  - now rewrite (proj2 (nth_error_None v p) Hp).
  - destruct (nth_error v p); [|reflexivity]. now rewrite IH.
Qed.

Lemma take_nth (v : ndarray1) (positions : list nat) :
  Forall (fun p => p < length v) positions ->
  take v positions = inr (map (fun p => nth p v NaN) positions).
Proof.
  induction 1 as [|p ps Hp _ IH]; cbn [take map]; [reflexivity|].
  rewrite (nth_error_nth' v NaN Hp), IH. reflexivity.
Qed.

(** X3.  Labels only rename the result.  On a well-formed matrix let the call
    with the default labels return the indices [positions].  The same call
    with the labels [c] returns the entries of [c] at these indices when all
    of them lie inside [c], and raises [IndexError] when one of them does
    not. *)
Theorem labels_rename_the_indices :
  forall (a_probs : ndarray2) (c : ndarray1) (w : world),
    well_formed a_probs ->
    exists positions,
      fst (nps_nhpp a_probs "none" None w) = inr (Arr1 (map of_nat positions)) /\
      (Forall (fun p => p < length c) positions ->
       fst (nps_nhpp a_probs "none" (Some c) w)
         = inr (Arr1 (map (fun p => nth p c NaN) positions))) /\
      (Exists (fun p => length c <= p) positions ->
       fst (nps_nhpp a_probs "none" (Some c) w) = inl IndexError).
Proof.
  intros a c w WF.
  destruct (nps_nhpp_default_labels "none" w WF) as (ps & E & B & Run).
  exists ps. split; [rewrite Run; reflexivity|].
  assert (NE : a <> []) by (destruct WF; auto).
  split; intro H; rewrite (nps_nhpp_run "none" (Some c) w NE); cbn [fst labels];
    rewrite E.
  - rewrite (@take_nth c ps H). reflexivity.
  - rewrite (@take_out_of_range c ps H). reflexivity.
Qed.

Lemma labels_rename_the_indices_witness :
  exists positions,
    fst (nps_nhpp two_point_matrix "none" None (world_of [(1 # 2)%Q; (1 # 4)%Q]))
      = inr (Arr1 (map of_nat positions)) /\
    (Forall (fun p => p < length [Fin 7]) positions ->
     fst (nps_nhpp two_point_matrix "none" (Some [Fin 7])
            (world_of [(1 # 2)%Q; (1 # 4)%Q]))
       = inr (Arr1 (map (fun p => nth p [Fin 7] NaN) positions))) /\
    (Exists (fun p => length [Fin 7] <= p) positions ->
     fst (nps_nhpp two_point_matrix "none" (Some [Fin 7])
            (world_of [(1 # 2)%Q; (1 # 4)%Q])) = inl IndexError).
Proof.
  exact (@labels_rename_the_indices two_point_matrix [Fin 7]
           (world_of [(1 # 2)%Q; (1 # 4)%Q]) two_point_matrix_well_formed).
Defined.

(** ** The inverse-CDF lookup on rows of non-negative numbers *)

Lemma finite_nonneg_list (row : list float) :
  finite_nonneg row -> exists l, row = map Fin l /\ Forall (fun q => 0 <= q)%Q l.
Proof.
  induction 1 as [|x row (q & -> & Hq) _ (l & -> & Hl)].
  - exists []. split; [reflexivity | constructor].
  - exists (q :: l). split; [reflexivity | now constructor].
Qed.

Lemma cumsum_from_fin (l : list Q) (a : Q) :
  cumsum_from (Fin a) (map Fin l) = map Fin (qcumsum_from a l).
Proof.
  revert a. induction l as [|x l IH]; intro a; cbn [map cumsum_from qcumsum_from add];
    [reflexivity|].
  now rewrite IH.
Qed.

Lemma cumsum_fin (l : list Q) : cumsum (map Fin l) = map Fin (qcumsum l).
Proof.
  destruct l as [|x l]; cbn [map cumsum qcumsum]; [reflexivity|].
  now rewrite cumsum_from_fin.
Qed.

Lemma qcumsum_from_lower (l : list Q) :
  Forall (fun q => 0 <= q)%Q l ->
  forall a k q, nth_error (qcumsum_from a l) k = Some q -> (a <= q)%Q.
Proof.
  induction 1 as [|x l Hx _ IH]; intros a k q E.
  - destruct k; discriminate.
  - cbn [qcumsum_from] in E. destruct k as [|k]; cbn [nth_error] in E.
    + assert (Eq : q = Qred (a + x)) by congruence. rewrite Eq, Qred_correct.
      rewrite <- (Qplus_0_r a) at 1. now apply Qplus_le_r.
    + apply IH in E. rewrite Qred_correct in E.
      apply Qle_trans with (a + x)%Q; [|exact E].
      rewrite <- (Qplus_0_r a) at 1. now apply Qplus_le_r.
Qed.

Lemma qcumsum_from_sorted (l : list Q) :
  Forall (fun q => 0 <= q)%Q l ->
  forall a j k qj qk, j <= k ->
    nth_error (qcumsum_from a l) j = Some qj ->
    nth_error (qcumsum_from a l) k = Some qk -> (qj <= qk)%Q.
Proof.
  induction 1 as [|x l Hx Hl IH]; intros a j k qj qk Hjk Ej Ek.
  - destruct j; discriminate.
  - cbn [qcumsum_from] in Ej, Ek. destruct j as [|j], k as [|k]; cbn [nth_error] in Ej, Ek.
    + injection Ej as <-. injection Ek as <-. apply Qle_refl.
    + injection Ej as <-. eapply qcumsum_from_lower; eauto.
    + lia.
    + eapply IH; [|exact Ej|exact Ek]. lia.
Qed.

Lemma qcumsum_sorted (l : list Q) :
  Forall (fun q => 0 <= q)%Q l ->
  forall j k qj qk, j <= k ->
    nth_error (qcumsum l) j = Some qj ->
    nth_error (qcumsum l) k = Some qk -> (qj <= qk)%Q.
Proof.
  intros F j k qj qk Hjk Ej Ek. destruct l as [|x l]; [destruct j; discriminate|].
  inversion F as [|? ? Hx Hl]; subst. cbn [qcumsum] in Ej, Ek.
  destruct j as [|j], k as [|k]; cbn [nth_error] in Ej, Ek.
  - injection Ej as <-. injection Ek as <-. apply Qle_refl.
  - injection Ej as <-. eapply qcumsum_from_lower; eauto.
  - lia.
  - eapply qcumsum_from_sorted; [exact Hl| |exact Ej|exact Ek]. lia.
Qed.

(** On a row of finite non-negative entries the cumulative sums do not
    decrease. *)
Lemma cumsum_ge_mono (row : list float) (j k : nat) (cj ck u : float) :
  finite_nonneg row -> j <= k ->
  nth_error (cumsum row) j = Some cj ->
  nth_error (cumsum row) k = Some ck ->
  ge cj u = true -> ge ck u = true.
Proof.
  intros F Hjk Ej Ek G. destruct (finite_nonneg_list F) as (l & -> & Hl).
  rewrite cumsum_fin, nth_error_map in Ej, Ek.
  destruct (nth_error (qcumsum l) j) as [qj|] eqn:Qj; [|discriminate].
  destruct (nth_error (qcumsum l) k) as [qk|] eqn:Qk; [|discriminate].
  cbn in Ej, Ek. injection Ej as <-. injection Ek as <-.
  pose proof (@qcumsum_sorted l Hl j k qj qk Hjk Qj Qk) as Hle.
  destruct u as [qu| | |]; cbn [ge] in *; try exact G.
  apply Qle_bool_iff. apply Qle_bool_iff in G. eapply Qle_trans; eauto.
Qed.

Lemma of_nat_inj (m n : nat) : of_nat m = of_nat n -> m = n.
Proof.
  unfold of_nat, inject_Z. intro E. injection E as E. lia.
Qed.

(** X4.  The lookup realizes the inverse CDF.  Take a row of the rescaled
    matrix with finite non-negative entries and a draw that some cumulative
    value reaches.  Column [k] is reported for the row exactly when the draw
    is at most the cumulative value of [k] and, for [k > 0], above the
    cumulative value of [k - 1]. *)
Theorem category_selected_iff_draw_in_its_interval :
  forall (a_probs : ndarray2) (correction : string) (w : world),
    well_formed a_probs ->
    correction <> "uniform"%string ->
    exists out,
      fst (nps_nhpp a_probs correction None w) = inr (Arr1 out) /\
      forall r row, nth_error (normalized a_probs) r = Some row ->
        finite_nonneg row ->
        let u := Fin (stream (random w) (consumed (random w) + r)) in
        let cum := cumsum row in
        (exists j c, nth_error cum j = Some c /\ ge c u = true) ->
        forall k,
          nth_error out r = Some (of_nat k) <->
          (exists c, nth_error cum k = Some c /\ ge c u = true) /\
          (k = 0 \/ exists c', nth_error cum (k - 1) = Some c' /\ ge c' u = false).
Proof.
  intros a correction w WF NU.
  destruct (sampled_index_first_reaching_draw w WF NU) as (out & E & Rows).
  exists out. split; [exact E|].
  intros r row Hr F u cum Reach k.
  destruct (Rows r row Hr) as (p & Ep & Hp & First & _).
  fold u cum in First. destruct (First Reach) as [(cp & Ecp & Gp) Before].
  split.
  - intro Ek. rewrite Ep in Ek.
    assert (Hk : p = k) by (apply of_nat_inj; congruence). subst k.
    split; [eauto|]. destruct p as [|p]; [now left|]. right.
    cbn [Nat.sub]. rewrite Nat.sub_0_r.
    assert (Hlt : p < length cum).
    { assert (S p < length cum) by (apply nth_error_Some; congruence). lia. }
    destruct (nth_error cum p) as [c'|] eqn:Ec'; [|apply nth_error_None in Ec'; lia].
    exists c'. split; [reflexivity|]. apply (Before p c'); [lia | exact Ec'].
  - intros [(c & Ec & Gc) Prev]. rewrite Ep. do 2 f_equal.
    destruct (Nat.lt_trichotomy p k) as [Hlt|[Heq|Hgt]]; [|exact Heq|].
    + exfalso. destruct Prev as [->|(c' & Ec' & Gc')]; [lia|].
      assert (G : ge c' u = true).
      { apply (@cumsum_ge_mono row p (k - 1) cp c' u F); [lia | exact Ecp | exact Ec' | exact Gp]. }
      congruence.
    + exfalso. rewrite (Before k c Hgt Ec) in Gc. discriminate.
Qed.

Lemma category_selected_iff_draw_in_its_interval_witness :
  exists out,
    fst (nps_nhpp two_point_matrix "none" None (world_of [(1 # 2)%Q; (1 # 4)%Q]))
      = inr (Arr1 out) /\
    (nth_error out 1 = Some (of_nat 1) <->
     (exists c, nth_error (cumsum [Fin 0; Fin 1]) 1 = Some c /\
                ge c (Fin (1 # 4)) = true) /\
     (1 = 0 \/ exists c', nth_error (cumsum [Fin 0; Fin 1]) (1 - 1) = Some c' /\
                          ge c' (Fin (1 # 4)) = false)).
Proof.
  destruct (@category_selected_iff_draw_in_its_interval two_point_matrix "none"
              (world_of [(1 # 2)%Q; (1 # 4)%Q]) two_point_matrix_well_formed)
    as (out & E & Rows); [discriminate|].
  exists out. split; [exact E|].
  apply (Rows 1 [Fin 0; Fin 1] eq_refl).
  - repeat constructor; eexists; (split; [reflexivity|]); discriminate.
  - exists 1, (Fin 1). split; reflexivity.
Defined.

Lemma qcumsum_from_step (l : list Q) :
  forall a k qk,
    nth_error (qcumsum_from a l) k = Some qk ->
    exists x, nth_error l k = Some x /\
      forall qp,
        match k with
        | 0 => qp = a
        | S k' => nth_error (qcumsum_from a l) k' = Some qp
        end -> (qk == qp + x)%Q.
Proof.
  induction l as [|x0 l IH]; intros a k qk E; [destruct k; discriminate|].
  cbn [qcumsum_from] in *. destruct k as [|k]; cbn [nth_error] in *.
  - exists x0. split; [reflexivity|]. intros qp ->.
    assert (Eq : qk = Qred (a + x0)) by congruence. rewrite Eq. apply Qred_correct.
  - destruct (IH _ _ _ E) as (x & Ex & Step). exists x. split; [exact Ex|].
    intros qp Hp. apply Step. destruct k as [|k]; cbn [nth_error] in Hp; [congruence | exact Hp].
Qed.

Lemma qcumsum_step (l : list Q) (k : nat) (qk : Q) :
  nth_error (qcumsum l) k = Some qk ->
  exists x, nth_error l k = Some x /\
    match k with
    | 0 => qk = x
    | S k' => forall qp, nth_error (qcumsum l) k' = Some qp -> (qk == qp + x)%Q
    end.
Proof.
  destruct l as [|x0 l]; [destruct k; discriminate|]. cbn [qcumsum].
  destruct k as [|k]; cbn [nth_error]; intro E.
  - exists x0. split; [reflexivity | congruence].
  - destruct (qcumsum_from_step _ _ _ E) as (x & Ex & Step). exists x.
    split; [exact Ex|]. intros qp Hp. apply Step.
    destruct k as [|k]; cbn [nth_error] in Hp; [congruence | exact Hp].
Qed.

(** X5.  A category of probability zero is not drawn by a positive draw.
    Take a row of the rescaled matrix with finite non-negative entries and a
    draw [u > 0] that some cumulative value reaches: the entry of the row at
    the reported column is positive. *)
Theorem positive_draw_selects_positive_probability :
  forall (a_probs : ndarray2) (correction : string) (w : world),
    well_formed a_probs ->
    correction <> "uniform"%string ->
    exists out,
      fst (nps_nhpp a_probs correction None w) = inr (Arr1 out) /\
      forall r row, nth_error (normalized a_probs) r = Some row ->
        finite_nonneg row ->
        let u := stream (random w) (consumed (random w) + r) in
        (0 < u)%Q ->
        (exists j c, nth_error (cumsum row) j = Some c /\ ge c (Fin u) = true) ->
        exists k x,
          nth_error out r = Some (of_nat k) /\
          nth_error row k = Some (Fin x) /\ (0 < x)%Q.
Proof.
  intros a correction w WF NU.
  destruct (sampled_index_first_reaching_draw w WF NU) as (out & E & Rows).
  exists out. split; [exact E|].
  intros r row Hr F u Hu Reach.
  destruct (Rows r row Hr) as (p & Ep & Hp & First & _).
  fold u in First. destruct (First Reach) as [(cp & Ecp & Gp) Before].
  destruct (finite_nonneg_list F) as (l & -> & Hl).
  rewrite cumsum_fin in Ecp, Before. rewrite nth_error_map in Ecp.
  destruct (nth_error (qcumsum l) p) as [qp|] eqn:Qp; [|discriminate].
  cbn in Ecp. assert (Ec : cp = Fin qp) by congruence. subst cp.
  cbn [ge] in Gp. apply Qle_bool_iff in Gp.
  destruct (qcumsum_step l p Qp) as (x & Ex & Step).
  exists p, x. split; [exact Ep|]. split; [rewrite nth_error_map, Ex; reflexivity|].
  destruct p as [|p].
  - subst qp. eapply Qlt_le_trans; eauto.
  - assert (Hlt : p < length (qcumsum l)).
    { assert (S p < length (qcumsum l)) by (apply nth_error_Some; congruence). lia. }
    destruct (nth_error (qcumsum l) p) as [q'|] eqn:Q'; [|apply nth_error_None in Q'; lia].
    specialize (Step q' eq_refl).
    assert (G' : ge (Fin q') (Fin u) = false).
    { apply (Before p (Fin q')); [lia|]. rewrite nth_error_map, Q'. reflexivity. }
    cbn [ge] in G'.
    assert (Hq' : (q' < u)%Q).
    { apply Qnot_le_lt. intro H. apply Qle_bool_iff in H. congruence. }
    rewrite Step in Gp.
    apply Qplus_lt_l with (z := q'). rewrite Qplus_0_l, (Qplus_comm x q').
    eapply Qlt_le_trans; eauto.
Qed.

Lemma positive_draw_selects_positive_probability_witness :
  exists out,
    fst (nps_nhpp two_point_matrix "none" None (world_of [(1 # 2)%Q; (1 # 4)%Q]))
      = inr (Arr1 out) /\
    exists k x,
      nth_error out 1 = Some (of_nat k) /\
      nth_error [Fin 0; Fin 1] k = Some (Fin x) /\ (0 < x)%Q.
Proof.
  destruct (@positive_draw_selects_positive_probability two_point_matrix "none"
              (world_of [(1 # 2)%Q; (1 # 4)%Q]) two_point_matrix_well_formed)
    as (out & E & Rows); [discriminate|].
  exists out. split; [exact E|].
  apply (Rows 1 [Fin 0; Fin 1] eq_refl).
  - repeat constructor; eexists; (split; [reflexivity|]); discriminate.
  - reflexivity.
  - exists 1, (Fin 1). split; reflexivity.
Defined.

(** X6.  A draw that the first entry of the row already reaches selects
    column 0.  In particular a draw of exactly 0, which [np.random.uniform]
    can return, selects column 0 of every row whose first entry is a number
    [>= 0], also when that entry is 0. *)
Theorem draw_within_first_entry_selects_first_category :
  forall (a_probs : ndarray2) (correction : string) (w : world),
    well_formed a_probs ->
    correction <> "uniform"%string ->
    exists out,
      fst (nps_nhpp a_probs correction None w) = inr (Arr1 out) /\
      forall r x rest, nth_error (normalized a_probs) r = Some (x :: rest) ->
        ge x (Fin (stream (random w) (consumed (random w) + r))) = true ->
        nth_error out r = Some (of_nat 0).
Proof.
  intros a correction w WF NU.
  destruct (sampled_index_first_reaching_draw w WF NU) as (out & E & Rows).
  exists out. split; [exact E|].
  intros r x rest Hr G.
  destruct (Rows r _ Hr) as (p & Ep & Hp & First & _).
  destruct First as [_ Before].
  { exists 0, x. split; [reflexivity | exact G]. }
  destruct p as [|p]; [exact Ep|].
  rewrite (Before 0 x) in G; [discriminate | lia | reflexivity].
Qed.

Lemma draw_within_first_entry_selects_first_category_witness :
  exists out,
    fst (nps_nhpp [[Fin 0; Fin 1]] "none" None (world_of [0%Q])) = inr (Arr1 out) /\
    nth_error out 0 = Some (of_nat 0).
Proof.
  destruct (@draw_within_first_entry_selects_first_category [[Fin 0; Fin 1]] "none"
              (world_of [0%Q])) as (out & E & Rows).
  - unfold well_formed, rectangular, shape1. cbn.
    repeat split; [discriminate | repeat constructor | lia].
  - discriminate.
  - exists out. split; [exact E|].
    apply (Rows 0 (Fin 0) [Fin 1]); reflexivity.
Defined.

Lemma ge_draw_mono (c : float) (u1 u2 : Q) :
  (u1 <= u2)%Q -> ge c (Fin u2) = true -> ge c (Fin u1) = true.
Proof.
  intros H G. destruct c as [q| | |]; cbn [ge] in *; try exact G.
  apply Qle_bool_iff. apply Qle_bool_iff in G. eapply Qle_trans; eauto.
Qed.

(** X7.  The reported index does not decrease with the draw.  For two calls
    on the same matrix whose draws for row [r] are [u1 <= u2], with [u2]
    reached by some cumulative value of the row, the index reported for the
    row by the first call is at most the one reported by the second. *)
Theorem larger_draw_selects_later_category :
  forall (a_probs : ndarray2) (correction : string) (w1 w2 : world),
    well_formed a_probs ->
    correction <> "uniform"%string ->
    exists out1 out2,
      fst (nps_nhpp a_probs correction None w1) = inr (Arr1 out1) /\
      fst (nps_nhpp a_probs correction None w2) = inr (Arr1 out2) /\
      forall r row, nth_error (normalized a_probs) r = Some row ->
        let u1 := stream (random w1) (consumed (random w1) + r) in
        let u2 := stream (random w2) (consumed (random w2) + r) in
        (u1 <= u2)%Q ->
        (exists j c, nth_error (cumsum row) j = Some c /\ ge c (Fin u2) = true) ->
        exists p1 p2,
          nth_error out1 r = Some (of_nat p1) /\
          nth_error out2 r = Some (of_nat p2) /\
          p1 <= p2.
Proof.
  intros a correction w1 w2 WF NU.
  destruct (sampled_index_first_reaching_draw w1 WF NU) as (out1 & E1 & Rows1).
  destruct (sampled_index_first_reaching_draw w2 WF NU) as (out2 & E2 & Rows2).
  exists out1, out2. split; [exact E1|]. split; [exact E2|].
  intros r row Hr u1 u2 Hle Reach.
  destruct (Rows1 r row Hr) as (p1 & Ep1 & _ & First1 & _).
  destruct (Rows2 r row Hr) as (p2 & Ep2 & _ & First2 & _).
  fold u1 in First1. fold u2 in First2.
  destruct (First2 Reach) as [(c2 & Ec2 & G2) _].
  pose proof (ge_draw_mono c2 Hle G2) as G21.
  destruct First1 as [_ Before1]; [exists p2, c2; auto|].
  exists p1, p2. split; [exact Ep1|]. split; [exact Ep2|].
  destruct (Nat.le_gt_cases p1 p2) as [H|H]; [exact H|].
  rewrite (Before1 p2 c2 H Ec2) in G21. discriminate.
Qed.

Lemma larger_draw_selects_later_category_witness :
  exists out1 out2,
    fst (nps_nhpp [[Fin (1 # 2); Fin (1 # 2)]] "none" None (world_of [(1 # 4)%Q]))
      = inr (Arr1 out1) /\
    fst (nps_nhpp [[Fin (1 # 2); Fin (1 # 2)]] "none" None (world_of [(3 # 4)%Q]))
      = inr (Arr1 out2) /\
    exists p1 p2,
      nth_error out1 0 = Some (of_nat p1) /\
      nth_error out2 0 = Some (of_nat p2) /\
      p1 <= p2.
Proof.
  destruct (@larger_draw_selects_later_category [[Fin (1 # 2); Fin (1 # 2)]] "none"
              (world_of [(1 # 4)%Q]) (world_of [(3 # 4)%Q]))
    as (out1 & out2 & E1 & E2 & Rows).
  - unfold well_formed, rectangular, shape1. cbn.
    repeat split; [discriminate | repeat constructor | lia].
  - discriminate.
  - exists out1, out2. split; [exact E1|]. split; [exact E2|].
    apply (Rows 0 [Fin (1 # 2); Fin (1 # 2)] eq_refl).
    + discriminate.
    + exists 1, (Fin 1). split; reflexivity.
Defined.

(** ** The jitter branch *)

(** X8.  What the jitter branch returns, entry by entry.  On a well-formed
    matrix with enough labels, let the call without the jitter return the
    labels [cv].  With the same draws the call with the jitter returns an
    array whose entry [(i, j)] is [cv[j]] plus the draw of row [i]; its
    diagonal [(i, i)] holds the label of row [i] plus the draw of row [i]. *)
Theorem jitter_entry_is_label_j_plus_draw_i :
  forall (a_probs : ndarray2) (a_categories : option ndarray1) (w : world),
    well_formed a_probs ->
    shape1 a_probs <= length (labels a_probs a_categories) ->
    exists cv out,
      fst (nps_nhpp a_probs "none" a_categories w) = inr (Arr1 cv) /\
      fst (nps_nhpp a_probs "uniform" a_categories w) = inr (Arr2 out) /\
      length cv = shape0 a_probs /\
      forall i, i < shape0 a_probs ->
        exists rowi,
          nth_error out i = Some rowi /\
          forall j x, nth_error cv j = Some x ->
            nth_error rowi j
              = Some (add x (Fin (stream (random w) (consumed (random w) + i)))).
Proof.
  intros a cats w WF HL.
  destruct (nps_nhpp_returns "none" cats w WF HL) as (ps & cv & E & T & RunN).
  destruct (nps_nhpp_returns "uniform" cats w WF HL) as (ps' & cv' & E' & T' & RunU).
  rewrite E in E'. injection E' as <-. rewrite T in T'. injection T' as <-.
  exists cv, (add_row_col cv (draws_of w (shape0 a))).
  rewrite RunN, RunU. split; [reflexivity|]. split; [reflexivity|]. split.
  - apply take_spec in T. rewrite <- (Forall2_length T).
    destruct (positions_rows w WF) as (ps' & E' & L & _). congruence.
  - intros i Hi. unfold add_row_col. rewrite nth_error_map, (draws_of_nth w Hi).
    eexists. split; [reflexivity|]. intros j x Ex.
    rewrite nth_error_map, Ex. reflexivity.
Qed.

Lemma jitter_entry_is_label_j_plus_draw_i_witness :
  exists cv out,
    fst (nps_nhpp two_point_matrix "none" None (world_of [(1 # 2)%Q; (1 # 4)%Q]))
      = inr (Arr1 cv) /\
    fst (nps_nhpp two_point_matrix "uniform" None (world_of [(1 # 2)%Q; (1 # 4)%Q]))
      = inr (Arr2 out) /\
    length cv = 2 /\
    forall i, i < 2 ->
      exists rowi,
        nth_error out i = Some rowi /\
        forall j x, nth_error cv j = Some x ->
          nth_error rowi j
            = Some (add x (Fin (nth (0 + i) [(1 # 2)%Q; (1 # 4)%Q] 0%Q))).
Proof.
  apply (@jitter_entry_is_label_j_plus_draw_i two_point_matrix None
           (world_of [(1 # 2)%Q; (1 # 4)%Q]) two_point_matrix_well_formed).
  apply Nat.leb_le. vm_compute. reflexivity.
Defined.

(** X9.  With the default labels and draws in [0, 1], the diagonal of the
    array the jitter branch returns holds the jittered samples: entry
    [(i, i)] is a number between [p] and [p + 1] for the index [p] reported
    for row [i] without the jitter.  Both ends are included: the sum of [p]
    and a draw below 1 can round to [p + 1] in binary64, and the bound is
    stated so that it does not depend on the sum being exact. *)
Theorem jitter_diagonal_within_selected_category :
  forall (a_probs : ndarray2) (w : world),
    well_formed a_probs ->
    (forall i, i < shape0 a_probs ->
       (0 <= stream (random w) (consumed (random w) + i) <= 1)%Q) ->
    exists cv out,
      fst (nps_nhpp a_probs "none" None w) = inr (Arr1 cv) /\
      fst (nps_nhpp a_probs "uniform" None w) = inr (Arr2 out) /\
      forall i, i < shape0 a_probs ->
        exists p rowi v,
          nth_error cv i = Some (of_nat p) /\
          nth_error out i = Some rowi /\
          nth_error rowi i = Some (Fin v) /\
          (inject_Z (Z.of_nat p) <= v <= inject_Z (Z.of_nat p) + 1)%Q.
Proof.
  intros a w WF Hu.
  destruct (nps_nhpp_default_labels "none" w WF) as (ps & E & B & RunN).
  destruct (nps_nhpp_default_labels "uniform" w WF) as (ps' & E' & _ & RunU).
  rewrite E in E'. injection E' as <-.
  exists (map of_nat ps), (add_row_col (map of_nat ps) (draws_of w (shape0 a))).
  rewrite RunN, RunU. split; [reflexivity|]. split; [reflexivity|].
  intros i Hi.
  assert (L : length ps = shape0 a).
  { destruct (positions_rows w WF) as (ps' & E' & L & _). congruence. }
  destruct (nth_error ps i) as [p|] eqn:Ep; [|apply nth_error_None in Ep; lia].
  exists p. unfold add_row_col. rewrite !nth_error_map, Ep, (draws_of_nth w Hi).
  cbn [option_map]. eexists. eexists. split; [reflexivity|].
  split; [reflexivity|]. rewrite !nth_error_map, Ep. cbn [option_map of_nat add].
  split; [reflexivity|].
  rewrite Qred_correct. destruct (Hu i Hi) as [H0 H1]. split.
  - rewrite <- (Qplus_0_r (inject_Z (Z.of_nat p))) at 1. now apply Qplus_le_r.
  - now apply Qplus_le_r.
Qed.

Lemma jitter_diagonal_within_selected_category_witness :
  exists cv out,
    fst (nps_nhpp two_point_matrix "none" None (world_of [(1 # 2)%Q; (1 # 4)%Q]))
      = inr (Arr1 cv) /\
    fst (nps_nhpp two_point_matrix "uniform" None (world_of [(1 # 2)%Q; (1 # 4)%Q]))
      = inr (Arr2 out) /\
    forall i, i < 2 ->
      exists p rowi v,
        nth_error cv i = Some (of_nat p) /\
        nth_error out i = Some rowi /\
        nth_error rowi i = Some (Fin v) /\
        (inject_Z (Z.of_nat p) <= v <= inject_Z (Z.of_nat p) + 1)%Q.
Proof.
  apply (@jitter_diagonal_within_selected_category two_point_matrix
           (world_of [(1 # 2)%Q; (1 # 4)%Q]) two_point_matrix_well_formed).
  intros i Hi. cbn.
  destruct i as [|[|i]]; [split; discriminate | split; discriminate |].
  unfold shape0, two_point_matrix in Hi. cbn in Hi. lia.
Defined.

(** * Further properties of the hazard-to-PMF transform *)

(** ** What the columns keep *)

Lemma assign_H_t_column {X} (f : row -> X) :
  (forall r v, f (set_H_t r v) = f r) ->
  forall df acc, map f (assign_H_t acc df) = map f df.
Proof.
  intros Hf df. induction df as [|r df IH]; intro acc; [reflexivity|].
  cbn [assign_H_t]. destruct (Rate r); cbn [map]; now rewrite Hf, IH.
Qed.

Lemma assign_p_t_column {X} (f : row -> X) :
  (forall r v, f (set_p_t r v) = f r) ->
  forall df prev, map f (assign_p_t prev df) = map f df.
Proof.
  intros Hf df. induction df as [|r df IH]; intro prev; [reflexivity|].
  cbn [assign_p_t map]. now rewrite Hf, IH.
Qed.

(** The four assignments leave every other column as it is. *)
Lemma df_mort_data_1_column {X} (f : row -> X) (raw : DataFrame) :
  (forall r v, f (set_H_t r v) = f r) ->
  (forall r v, f (set_S_t r v) = f r) ->
  (forall r v, f (set_F_t r v) = f r) ->
  (forall r v, f (set_p_t r v) = f r) ->
  map f (df_mort_data_1 raw) = map f (sorted_2015 raw).
Proof.
  intros HH HS HF Hp. unfold df_mort_data_1.
  rewrite (assign_p_t_column f Hp). unfold assign_F_t, assign_S_t.
  rewrite !map_map.
  rewrite (map_ext _ f) by (intro r; now rewrite HF, HS).
  apply (assign_H_t_column f HH).
Qed.

Lemma df_mort_data_1_year (raw : DataFrame) :
  Forall (fun r => Year r = 2015%Z) (df_mort_data_1 raw).
Proof.
  rewrite Forall_forall. intros r Hin. apply (in_map Year) in Hin.
  rewrite (@df_mort_data_1_column Z Year raw) in Hin by reflexivity.
  apply in_map_iff in Hin. destruct Hin as (r0 & <- & Hin0).
  pose proof (sorted_2015_year raw) as Y. rewrite Forall_forall in Y. now apply Y.
Qed.

Lemma stratum_column_length (s : string) (df df' : DataFrame) :
  map Sex df = map Sex df' -> length (stratum s df) = length (stratum s df').
Proof.
  revert df'. induction df as [|r df IH]; intros [|r' df'] E; try discriminate;
    [reflexivity|].
  cbn [map] in E. injection E as Er E. unfold stratum in *. cbn [filter].
  rewrite Er. destruct (String.eqb (Sex r') s); cbn [length]; rewrite (IH df' E);
    reflexivity.
Qed.

(** ** The strata are independent *)

Lemma stratum_sorted_2015 (s : string) (raw : DataFrame) :
  stratum s (sorted_2015 raw) = sort_values (stratum s (query_Year_2015 raw)).
Proof.
  unfold sorted_2015, stratum. apply filter_sort_values.
Qed.

Lemma stratum_df_mort_data_2_sort (s : string) (raw : DataFrame) :
  stratum s (df_mort_data_2 raw)
    = sort_values (stratum s (df_mort_data_1 raw) ++ stratum s (df_mort_append_0 raw)).
Proof.
  unfold df_mort_data_2, stratum. now rewrite filter_sort_values, filter_app.
Qed.

(** X12.  A stratum is computed from its own records of 2015 alone.  Two raw
    tables that hold the same records of 2015 for a stratum, in the same
    order, give the same rows for it in [df_mort_data_1], in
    [df_mort_append_0] and in [df_mort_data_2], whatever the records of the
    other strata and of the other years are. *)
Theorem stratum_depends_on_its_records_only :
  forall (raw1 raw2 : DataFrame) (s : string),
    stratum s (query_Year_2015 raw1) = stratum s (query_Year_2015 raw2) ->
    stratum s (df_mort_data_1 raw1) = stratum s (df_mort_data_1 raw2) /\
    stratum s (df_mort_append_0 raw1) = stratum s (df_mort_append_0 raw2) /\
    stratum s (df_mort_data_2 raw1) = stratum s (df_mort_data_2 raw2).
Proof.
  intros raw1 raw2 s E.
  assert (E1 : stratum s (df_mort_data_1 raw1) = stratum s (df_mort_data_1 raw2)).
  { rewrite !stratum_df_mort_data_1, !stratum_sorted_2015, E. reflexivity. }
  assert (E0 : stratum s (df_mort_append_0 raw1) = stratum s (df_mort_append_0 raw2)).
  { unfold df_mort_append_0.
    rewrite !stratum_terminal, !stratum_groupby_tail_1, E1. reflexivity. }
  split; [exact E1|]. split; [exact E0|].
  now rewrite !stratum_df_mort_data_2_sort, E1, E0.
Qed.

Lemma stratum_depends_on_its_records_only_witness :
  stratum "A" (df_mort_data_2 (read_csv table_A))
    = stratum "A" (df_mort_data_2
        (read_csv (mkRecord "B" 2015 0 (Some 1%R)
                   :: mkRecord "A" 2014 7 None :: table_A))).
Proof.
  apply (@stratum_depends_on_its_records_only (read_csv table_A)
           (read_csv (mkRecord "B" 2015 0 (Some 1%R)
                      :: mkRecord "A" 2014 7 None :: table_A)) "A").
  reflexivity.
Defined.

(** ** One appended row for every stratum *)

Lemma terminal_row_fields (r : row) :
  Sex (terminal_row r) = Sex r /\ Year (terminal_row r) = Year r /\
  Age (terminal_row r) = 101%Z /\ Rate (terminal_row r) = None /\
  H_t (terminal_row r) = None.
Proof.
  repeat split.
Qed.

(** X13.  Whatever the rates are, missing ones included, every stratum with
    a record of 2015 gets exactly one appended row: of that stratum, of the
    year 2015, of age 101, without rate and without cumulative hazard.  A
    stratum without record of 2015 gets none. *)
Theorem one_appended_row_for_every_stratum :
  forall (raw : DataFrame) (s : string),
    (stratum s (query_Year_2015 raw) <> [] ->
     exists last,
       stratum s (df_mort_append_0 raw) = [last] /\
       Sex last = s /\ Year last = 2015%Z /\ Age last = 101%Z /\
       Rate last = None /\ H_t last = None) /\
    (stratum s (query_Year_2015 raw) = [] ->
     stratum s (df_mort_append_0 raw) = []).
Proof.
  intros raw s.
  assert (L : length (stratum s (df_mort_data_1 raw))
              = length (stratum s (query_Year_2015 raw))).
  { rewrite (@stratum_column_length s (df_mort_data_1 raw) (sorted_2015 raw)).
    - rewrite stratum_sorted_2015. apply Permutation_length, sort_values_perm.
    - apply df_mort_data_1_column; reflexivity. }
  unfold df_mort_append_0. rewrite stratum_terminal, stratum_groupby_tail_1.
  split; intro H.
  - destruct (@groupby_tail_1_single s (stratum s (df_mort_data_1 raw)))
      as (r & Er & T).
    { apply stratum_all. }
    { intro Z. rewrite Z in L. destruct (stratum s (query_Year_2015 raw));
        [congruence | discriminate]. }
    rewrite T. exists (terminal_row r). split; [reflexivity|].
    apply nth_error_In in Er.
    destruct (terminal_row_fields r) as (Hs & Hy & Ha & Hr & Hh).
    rewrite Hs, Hy. repeat split; auto.
    + pose proof (stratum_all s (df_mort_data_1 raw)) as A.
      rewrite Forall_forall in A. now apply A.
    + pose proof (df_mort_data_1_year raw) as Y. rewrite Forall_forall in Y.
      apply Y. unfold stratum in Er. apply filter_In in Er. tauto.
  - rewrite H in L. destruct (stratum s (df_mort_data_1 raw)); [reflexivity | discriminate].
Qed.

Lemma one_appended_row_for_every_stratum_witness :
  exists last,
    stratum "A" (df_mort_append_0 (read_csv table_A_missing)) = [last] /\
    Sex last = "A"%string /\ Year last = 2015%Z /\ Age last = 101%Z /\
    Rate last = None /\ H_t last = None.
Proof.
  apply (proj1 (one_appended_row_for_every_stratum (read_csv table_A_missing) "A")).
  discriminate.
Defined.

(** X14.  [df_mort_data_2] is in the order of its keys (Sex, Year, Age) and
    holds rows of the year 2015 only. *)
Theorem df_mort_data_2_sorted_rows_of_2015 :
  forall (raw : DataFrame),
    StronglySorted (fun a b => key_leb a b = true) (df_mort_data_2 raw) /\
    Forall (fun r => Year r = 2015%Z) (df_mort_data_2 raw).
Proof.
  intro raw. split; [apply sort_values_sorted|].
  unfold df_mort_data_2.
  eapply Permutation_Forall; [symmetry; apply sort_values_perm|].
  apply Forall_app. split; [apply df_mort_data_1_year|].
  unfold df_mort_append_0. rewrite Forall_map.
  assert (T : forall df, Forall (fun r => Year r = 2015%Z) df ->
                         Forall (fun r => Year r = 2015%Z) (groupby_tail_1 df)).
  { induction 1 as [|r df Hr _ IH]; cbn [groupby_tail_1]; [constructor|].
    destruct (existsb _ df); [exact IH | now constructor]. }
  eapply Forall_impl; [|apply T, df_mort_data_1_year]. auto.
Qed.

(** ** The survival curve *)




(** * The wide table *)

Lemma key_eqb_eq (a b : Z * string * Z) : key_eqb a b = true <-> a = b.
Proof.
  destruct a as [[y1 s1] a1], b as [[y2 s2] a2]. unfold key_eqb.
  rewrite !andb_true_iff, !Z.eqb_eq, String.eqb_eq. split.
  - intros [[-> ->] ->]. reflexivity.
  - intro E. injection E as -> -> ->. auto.
Qed.

Lemma has_duplicates_NoDup (keys : list (Z * string * Z)) :
  has_duplicates keys = false <-> NoDup keys.
Proof.
  induction keys as [|k rest IH]; cbn [has_duplicates].
  - split; [constructor | reflexivity].
  - rewrite orb_false_iff, IH. split.
    + intros [E N]. constructor; [|exact N]. intro Hin.
      assert (T : existsb (key_eqb k) rest = true).
      { apply existsb_exists. exists k. split; [exact Hin | now apply key_eqb_eq]. }
      congruence.
    + intro N. inversion N as [|? ? Hn N']; subst. split; [|exact N'].
      destruct (existsb (key_eqb k) rest) eqn:E; [|reflexivity].
      apply existsb_exists in E. destruct E as (k' & Hin & Ek).
      apply key_eqb_eq in Ek. subst k'. contradiction.
Qed.

Lemma insert_unique_In {A} (cmp : A -> A -> comparison) (x z : A) (l : list A) :
  (forall a b, cmp a b = Eq -> a = b) ->
  In z (insert_unique cmp x l) <-> z = x \/ In z l.
Proof.
  intro Heq. induction l as [|y rest IH]; cbn [insert_unique].
  - cbn. intuition.
  - destruct (cmp x y) eqn:E; cbn [In].
    + apply Heq in E. subst y. intuition.
    + intuition.
    + rewrite IH. intuition.
Qed.

Lemma sort_unique_In {A} (cmp : A -> A -> comparison) (z : A) (l : list A) :
  (forall a b, cmp a b = Eq -> a = b) ->
  In z (sort_unique cmp l) <-> In z l.
Proof.
  intro Heq. unfold sort_unique. induction l as [|x rest IH]; cbn [fold_right In].
  - reflexivity.
  - rewrite (insert_unique_In cmp x z _ Heq), IH. intuition.
Qed.

Lemma index_compare_eq (a b : Z * string) : index_compare a b = Eq -> a = b.
Proof.
  destruct a as [y1 s1], b as [y2 s2]. unfold index_compare. cbn [fst snd].
  destruct (Z.compare_spec y1 y2) as [->| |]; try discriminate.
  intro E. apply string_compare_eq in E. now subst.
Qed.

Lemma NoDup_map_injective {A B} (f : A -> B) (l : list A) (x y : A) :
  NoDup (map f l) -> In x l -> In y l -> f x = f y -> x = y.
Proof.
  induction l as [|a l IH]; cbn [map]; intros N Hx Hy E; [contradiction|].
  inversion N as [|? ? Hn N']; subst.
  destruct Hx as [->|Hx], Hy as [->|Hy]; auto.
  - exfalso. apply Hn. rewrite E. now apply in_map.
  - exfalso. apply Hn. rewrite <- E. now apply in_map.
Qed.

Lemma value_at_row (df : DataFrame) (r : row) :
  NoDup (map pivot_key df) -> In r df ->
  value_at df (Year r) (Sex r) (Age r) = p_t r.
Proof.
  intros N Hin. unfold value_at.
  destruct (find (fun r' => key_eqb (pivot_key r') (Year r, Sex r, Age r)) df)
    as [r'|] eqn:F.
  - apply find_some in F. destruct F as [Hin' E]. apply key_eqb_eq in E.
    now rewrite (NoDup_map_injective pivot_key df r' r N Hin' Hin E).
  - exfalso. apply (find_none _ _ F r) in Hin.
    assert (T : key_eqb (pivot_key r) (Year r, Sex r, Age r) = true)
      by now apply key_eqb_eq.
    congruence.
Qed.

(** X20.  The pivot loses nothing and invents nothing.  When [pivot]
    returns, every row of the wide table has one cell for every age column;
    the [p_t] of every row of the frame is found in the wide row of its
    [Year] and [Sex], in the column of its [Age]; and every cell that is not
    NaN is the [p_t] of a row of the frame with these keys. *)
Theorem pivot_keeps_every_value :
  forall (df : DataFrame) (w : wide_frame),
    pivot df = inr w ->
    Forall (fun wr => length (w_values wr) = length (w_columns w)) (w_rows w) /\
    (forall r, In r df ->
       exists wr j,
         In wr (w_rows w) /\ w_Year wr = Year r /\ w_Sex wr = Sex r /\
         nth_error (w_columns w) j = Some (Age r) /\
         nth_error (w_values wr) j = Some (p_t r)) /\
    (forall wr j a v,
       In wr (w_rows w) ->
       nth_error (w_columns w) j = Some a ->
       nth_error (w_values wr) j = Some (Some v) ->
       exists r, In r df /\ Year r = w_Year wr /\ Sex r = w_Sex wr /\
                 Age r = a /\ p_t r = Some v).
Proof.
  intros df w. unfold pivot.
  destruct (has_duplicates (map pivot_key df)) eqn:D; [discriminate|].
  apply has_duplicates_NoDup in D. intro E. injection E as <-. cbn [w_columns w_rows].
  set (columns := sort_unique Z.compare (map Age df)).
  set (index := sort_unique index_compare (map (fun r => (Year r, Sex r)) df)).
  split; [|split].
  - rewrite Forall_map, Forall_forall. intros i _. cbn. apply length_map.
  - intros r Hin.
    assert (Hc : In (Age r) columns).
    { apply sort_unique_In; [apply Z.compare_eq | now apply in_map]. }
    assert (Hi : In (Year r, Sex r) index).
    { apply sort_unique_In; [apply index_compare_eq|].
      apply (in_map (fun r => (Year r, Sex r))) in Hin. exact Hin. }
    destruct (In_nth_error _ _ Hc) as [j Ej].
    exists (mkWideRow (Year r) (Sex r)
              (map (value_at df (Year r) (Sex r)) columns)), j.
    split; [|cbn; repeat split].
    + apply in_map_iff. exists (Year r, Sex r). split; [reflexivity | exact Hi].
    + exact Ej.
    + rewrite nth_error_map, Ej. cbn. now rewrite value_at_row.
  - intros wr j a v Hwr Ea Ev.
    apply in_map_iff in Hwr. destruct Hwr as ([y s] & <- & _).
    cbn [fst snd w_values w_Year w_Sex] in *.
    rewrite nth_error_map, Ea in Ev. cbn in Ev.
    assert (Ev' : value_at df y s a = Some v) by congruence.
    unfold value_at in Ev'.
    destruct (find (fun r => key_eqb (pivot_key r) (y, s, a)) df) as [r|] eqn:F;
      [|discriminate].
    apply find_some in F. destruct F as [Hin K]. apply key_eqb_eq in K.
    unfold pivot_key in K. injection K as Ky Ks Ka.
    exists r. auto.
Qed.


(** ** When the wide table can be built *)

Lemma groupby_tail_1_In (r : row) (df : DataFrame) :
  In r (groupby_tail_1 df) -> In r df.
Proof.
  induction df as [|r0 rest IH]; cbn [groupby_tail_1]; [auto|].
  destruct (existsb (fun r' => String.eqb (Sex r') (Sex r0)) rest); cbn [In]; intuition.
Qed.

Lemma groupby_tail_1_NoDup_Sex (df : DataFrame) :
  NoDup (map Sex (groupby_tail_1 df)).
Proof.
  induction df as [|r0 rest IH]; cbn [groupby_tail_1]; [constructor|].
  destruct (existsb (fun r' => String.eqb (Sex r') (Sex r0)) rest) eqn:E; [exact IH|].
  cbn [map]. constructor; [|exact IH]. intro Hin.
  apply in_map_iff in Hin. destruct Hin as (r' & Es & Hin).
  apply groupby_tail_1_In in Hin.
  assert (T : existsb (fun r' => String.eqb (Sex r') (Sex r0)) rest = true).
  { apply existsb_exists. exists r'. split; [exact Hin | now apply String.eqb_eq]. }
  congruence.
Qed.

Lemma groupby_tail_1_covers (df : DataFrame) :
  forall r, In r df -> exists r', In r' (groupby_tail_1 df) /\ Sex r' = Sex r.
Proof.
  induction df as [|r0 rest IH]; cbn [groupby_tail_1]; [contradiction|].
  assert (K : forall r, In r rest ->
            exists r', In r' (if existsb (fun r' => String.eqb (Sex r') (Sex r0)) rest
                              then groupby_tail_1 rest
                              else r0 :: groupby_tail_1 rest) /\ Sex r' = Sex r).
  { intros r Hin. destruct (IH r Hin) as (r' & Hin' & E). exists r'.
    split; [|exact E].
    destruct (existsb (fun r' => String.eqb (Sex r') (Sex r0)) rest);
      [exact Hin' | now right]. }
  intros r [->|Hin]; [|now apply K].
  destruct (existsb (fun r' => String.eqb (Sex r') (Sex r)) rest) eqn:E.
  - apply existsb_exists in E. destruct E as (r1 & Hin1 & E1).
    apply String.eqb_eq in E1. destruct (IH r1 Hin1) as (r' & Hin' & E').
    exists r'. split; [exact Hin' | congruence].
  - exists r. split; [now left | reflexivity].
Qed.

(** The keys of [df_mort_data_2]: those of the records of 2015, and one of
    age 101 for every last row. *)
Lemma df_mort_data_2_keys (raw : DataFrame) :
  Permutation (map pivot_key (df_mort_data_2 raw))
    (map pivot_key (query_Year_2015 raw)
     ++ map (fun r => (Year r, Sex r, 101%Z)) (groupby_tail_1 (df_mort_data_1 raw))).
Proof.
  unfold df_mort_data_2.
  rewrite (Permutation_map pivot_key (sort_values_perm _)), map_app.
  apply Permutation_app.
  - rewrite (@df_mort_data_1_column _ pivot_key raw) by reflexivity.
    unfold sorted_2015. apply Permutation_map, sort_values_perm.
  - unfold df_mort_append_0. rewrite map_map. apply Permutation_refl.
Qed.

Lemma query_Year_2015_keys (raw : DataFrame) :
  map pivot_key (query_Year_2015 raw)
  = map (fun k => (2015%Z, fst k, snd k))
        (map (fun r => (Sex r, Age r)) (query_Year_2015 raw)).
Proof.
  rewrite map_map. apply map_ext_in. intros r Hin.
  unfold query_Year_2015 in Hin. apply filter_In in Hin. destruct Hin as [_ E].
  apply Z.eqb_eq in E. unfold pivot_key. cbn [fst snd]. now rewrite E.
Qed.

Lemma query_Year_2015_keys_NoDup (raw : DataFrame) :
  NoDup (map pivot_key (query_Year_2015 raw))
  <-> NoDup (map (fun r => (Sex r, Age r)) (query_Year_2015 raw)).
Proof.
  rewrite query_Year_2015_keys. split.
  - apply NoDup_map_inv.
  - apply Finite.Injective_map_NoDup_in. intros [s a] [s' a'] _ _ E.
    cbn [fst snd] in E. congruence.
Qed.

(** A record of 2015 of age 101 has the keys of the row appended to its
    stratum. *)
Lemma age_101_collides (raw : DataFrame) (r : row) :
  In r (query_Year_2015 raw) -> Age r = 101%Z ->
  In (pivot_key r) (map pivot_key (query_Year_2015 raw)) /\
  In (pivot_key r)
     (map (fun r => (Year r, Sex r, 101%Z)) (groupby_tail_1 (df_mort_data_1 raw))).
Proof.
  intros Hin Ha. split; [now apply in_map|].
  assert (Y : Year r = 2015%Z).
  { unfold query_Year_2015 in Hin. apply filter_In in Hin. now apply Z.eqb_eq. }
  assert (Hs : In (Sex r) (map Sex (df_mort_data_1 raw))).
  { rewrite (@df_mort_data_1_column _ Sex raw) by reflexivity.
    unfold sorted_2015.
    apply (Permutation_in _ (Permutation_sym (Permutation_map Sex (sort_values_perm _)))).
    now apply in_map. }
  apply in_map_iff in Hs. destruct Hs as (r1 & E1 & Hin1).
  destruct (groupby_tail_1_covers _ _ Hin1) as (r' & Hin' & E').
  apply in_map_iff. exists r'. split; [|exact Hin'].
  pose proof (df_mort_data_1_year raw) as YY. rewrite Forall_forall in YY.
  rewrite (YY r' (groupby_tail_1_In _ _ Hin')).
  unfold pivot_key. rewrite Y, Ha. congruence.
Qed.

Lemma NoDup_app_disjoint {A} (l1 l2 : list A) (a : A) :
  NoDup (l1 ++ l2) -> In a l1 -> In a l2 -> False.
Proof.
  induction l1 as [|x l1 IH]; cbn [app]; [contradiction|].
  intros N [->|H1] H2; inversion N as [|? ? Hn N']; subst.
  - apply Hn, in_or_app. now right.
  - now apply IH.
Qed.

(** The keys of [df_mort_data_2] are distinct exactly when the records of
    2015 have distinct (Sex, Age) and none of them has age 101. *)
Lemma df_mort_data_2_keys_NoDup (raw : DataFrame) :
  NoDup (map pivot_key (df_mort_data_2 raw)) <->
  NoDup (map (fun r => (Sex r, Age r)) (query_Year_2015 raw)) /\
  Forall (fun r => Age r <> 101%Z) (query_Year_2015 raw).
Proof.
  split.
  - intro D. apply (Permutation_NoDup (df_mort_data_2_keys raw)) in D. split.
    + apply query_Year_2015_keys_NoDup. exact (NoDup_app_remove_r _ _ D).
    + rewrite Forall_forall. intros r Hin Ha.
      destruct (age_101_collides raw r Hin Ha) as [H1 H2].
      exact (NoDup_app_disjoint _ _ _ D H1 H2).
  - intros [N F].
    apply (Permutation_NoDup (Permutation_sym (df_mort_data_2_keys raw))).
    apply NoDup_app.
    + now apply query_Year_2015_keys_NoDup.
    + apply (NoDup_map_inv (fun k => snd (fst k))). rewrite map_map.
      apply groupby_tail_1_NoDup_Sex.
    + intros k H1 H2. apply in_map_iff in H1. destruct H1 as (r & <- & Hin).
      apply in_map_iff in H2. destruct H2 as (r' & E & _).
      rewrite Forall_forall in F. apply (F r Hin).
      unfold pivot_key in E. congruence.
Qed.

Lemma table_A_keys :
  NoDup (map (fun r => (Sex r, Age r)) (query_Year_2015 (read_csv table_A))) /\
  Forall (fun r => Age r <> 101%Z) (query_Year_2015 (read_csv table_A)).
Proof.
  cbn. split.
  - repeat constructor; cbn; intuition discriminate.
  - repeat constructor; discriminate.
Qed.

Lemma pivot_returns (df : DataFrame) :
  NoDup (map pivot_key df) -> exists w, pivot df = inr w.
Proof.
  intro N. apply has_duplicates_NoDup in N. unfold pivot. rewrite N.
  eexists. reflexivity.
Qed.

Lemma pivot_keeps_every_value_witness :
  exists w,
    pivot (df_mort_data_2 (read_csv table_A)) = inr w /\
    Forall (fun wr => length (w_values wr) = length (w_columns w)) (w_rows w).
Proof.
  destruct (@pivot_returns _ (proj2 (df_mort_data_2_keys_NoDup _) table_A_keys))
    as [w E].
  exists w. split; [exact E|].
  exact (proj1 (@pivot_keeps_every_value (df_mort_data_2 (read_csv table_A)) w E)).
Defined.

(** X21.  For a table with a record of 2015, the wide table is built
    exactly when the records of 2015 have distinct (Sex, Age) and none of
    them has age 101, the age the script gives to the row it appends to
    every stratum; the pivot raises [ValueError] exactly when this fails. *)
Theorem wide_table_built_iff_keys_distinct_and_no_age_101 :
  forall raw : DataFrame,
    query_Year_2015 raw <> [] ->
    ((exists w, df_mort_data_2_wide raw = inr w) <->
     NoDup (map (fun r => (Sex r, Age r)) (query_Year_2015 raw)) /\
     Forall (fun r => Age r <> 101%Z) (query_Year_2015 raw)) /\
    (df_mort_data_2_wide raw = inl ValueError <->
     ~ (NoDup (map (fun r => (Sex r, Age r)) (query_Year_2015 raw)) /\
        Forall (fun r => Age r <> 101%Z) (query_Year_2015 raw))).
Proof.
  intros raw _. unfold df_mort_data_2_wide, pivot.
  rewrite <- df_mort_data_2_keys_NoDup, <- has_duplicates_NoDup.
  destruct (has_duplicates (map pivot_key (df_mort_data_2 raw))).
  - split; split.
    + intros [w E]. discriminate.
    + discriminate.
    + intros _. discriminate.
    + reflexivity.
  - split; split.
    + reflexivity.
    + intros _. eexists. reflexivity.
    + discriminate.
    + intro H. exfalso. now apply H.
Qed.

Lemma wide_table_built_iff_keys_distinct_and_no_age_101_witness :
  query_Year_2015 (read_csv table_A_to_101) <> [] /\
  df_mort_data_2_wide (read_csv table_A_to_101) = inl ValueError.
Proof.
  split; [discriminate|].
  apply (proj2 (@wide_table_built_iff_keys_distinct_and_no_age_101
                  (read_csv table_A_to_101) ltac:(discriminate))).
  intros [_ F]. cbn in F. inversion F as [|? ? _ F1]; subst.
  inversion F1 as [|? ? H _]; subst. apply H. reflexivity.
Defined.
